(** * FileWalker: a recursive directory walker with an extension filter
      and directory pruning (src/core/file_walker.py)

    The walker and the three library functions it calls ([os.path.abspath],
    [os.path.join] and [os.walk], in their POSIX versions) are embedded as
    Rocq functions.

    - A Python [str] is a [string]; [str.lower] is modelled on the ASCII
      letters and leaves every other character as it is.
    - A directory is the list of its entries in the order [os.scandir]
      reports them; a directory that cannot be listed, below the root, is
      not modelled.
    - [walk()] is modelled twice: by the list of the paths it yields when it
      is consumed to the end ([walk]), and as a generator advanced by [next],
      with the walker object and the standard output as the program state.
      [take_paths_spec] relates the two. *)

From Stdlib Require Import Ascii String.
From stdpp Require Import gmap strings list.

(** * Definitions *)

(** ** Strings and paths *)

Definition lower_ascii (c : ascii) : ascii :=
  if (Ascii.leb "A" c && Ascii.leb c "Z")%char%bool
  then ascii_of_nat (nat_of_ascii c + 32)
  else c.

(** [s.lower()] *)
Fixpoint lower (s : string) : string :=
  match s with
  | EmptyString => EmptyString
  | String c s' => String (lower_ascii c) (lower s')
  end.

(** [s.startswith(p)] *)
Fixpoint startswith (s p : string) {struct p} : bool :=
  match p, s with
  | EmptyString, _ => true
  | String _ _, EmptyString => false
  | String c p', String d s' => Ascii.eqb c d && startswith s' p'
  end.

(** [s.endswith(suffix)]: some tail of [s] is [suffix]. *)
Fixpoint endswith (s suffix : string) : bool :=
  String.eqb s suffix ||
  match s with
  | EmptyString => false
  | String _ s' => endswith s' suffix
  end.

(** [posixpath.join(a, b)] *)
Definition join (a b : string) : string :=
  if startswith b "/" || String.eqb a "" then b
  else if endswith a "/" then a +:+ b
  else a +:+ "/" +:+ b.

(** [s.split("/")] *)
Fixpoint split (s : string) : list string :=
  match s with
  | EmptyString => [EmptyString]
  | String c s' =>
      if Ascii.eqb c "/"%char then EmptyString :: split s'
      else match split s' with
           | [] => [String c EmptyString]
           | comp :: comps => String c comp :: comps
           end
  end.

(** ["/".join(comps)] *)
Fixpoint sep_join (comps : list string) : string :=
  match comps with
  | [] => ""
  | [comp] => comp
  | comp :: comps => comp +:+ "/" +:+ sep_join comps
  end.

(** ["/" * n] *)
Fixpoint slashes (n : nat) : string :=
  match n with
  | O => ""
  | S n => String "/"%char (slashes n)
  end.

(** One iteration of the loop of [posixpath.normpath] over the components. *)
Definition normpath_step (initial_slashes : nat) (new_comps : list string)
    (comp : string) : list string :=
  if bool_decide (comp = "" ∨ comp = ".") then new_comps
  else if bool_decide (comp ≠ "..")
          || bool_decide (initial_slashes = 0%nat ∧ new_comps = [])
          || bool_decide (new_comps ≠ [] ∧ last new_comps = Some "..")
  then new_comps ++ [comp]
  else if bool_decide (new_comps ≠ []) then removelast new_comps
  else new_comps.

(** [posixpath.normpath(path)] *)
Definition normpath (path : string) : string :=
  if String.eqb path "" then "."
  else
    let initial_slashes :=
      if startswith path "/"
      then if startswith path "//" && negb (startswith path "///")
           then 2%nat else 1%nat
      else 0%nat in
    let comps := foldl (normpath_step initial_slashes) [] (split path) in
    let path := slashes initial_slashes +:+ sep_join comps in
    if String.eqb path "" then "." else path.

(** [posixpath.abspath(path)], [cwd] being what [os.getcwd()] returns. *)
Definition abspath (cwd path : string) : string :=
  normpath (if startswith path "/" then path else join cwd path).

(** [os.path.basename(p)] *)
Definition basename (p : string) : string := default "" (last (split p)).

(** ** The directory tree

    What [os.scandir] reports below a directory: the entries in listing
    order.  [File] stands for every entry whose [is_dir()] is false,
    [DirLink] for a symbolic link to a directory ([is_dir()] is true, but
    [os.walk] does not descend into it when [followlinks] is false). *)

#[local] Unset Elimination Schemes.
Inductive node : Type :=
| File (name : string)
| Dir (name : string) (entries : list node)
| DirLink (name : string).
#[local] Set Elimination Schemes.

(** Induction on trees, with the hypothesis for every entry of a directory. *)

Section node_induction.
Variable P : node → Prop.
Hypothesis HFile : ∀ name, P (File name).
Hypothesis HDir : ∀ name entries, Forall P entries → P (Dir name entries).
Hypothesis HDirLink : ∀ name, P (DirLink name).

Fixpoint node_ind (n : node) : P n :=
  match n with
  | File name => HFile name
  | Dir name entries =>
      HDir name entries
        ((fix go (l : list node) : Forall P l :=
            match l with
            | [] => Forall_nil_2 P
            | e :: l' => Forall_cons_2 P e l' (node_ind e) (go l')
            end) entries)
  | DirLink name => HDirLink name
  end.

End node_induction.

Definition entry_name (n : node) : string :=
  match n with
  | File name | Dir name _ | DirLink name => name
  end.

Definition is_dir (n : node) : bool :=
  match n with
  | File _ => false
  | Dir _ _ | DirLink _ => true
  end.

(** The file system as seen from a path: the listing of the directory at
    that absolute path, [None] when [os.scandir] fails there (no such
    directory, not a directory, no permission). *)
Definition filesystem : Type := string → option (list node).

(** Number of real directories in a tree: the number of directory visits a
    traversal of it can make. *)
Fixpoint dir_count (n : node) : nat :=
  match n with
  | Dir _ entries => S (sum_list_with dir_count entries)
  | File _ | DirLink _ => 0
  end.

(** ** [os.walk(top, topdown=True)]

    The generator keeps a stack of directories still to visit.  Each visit
    yields the triple [(top, dirs, nondirs)]; the consumer may update the
    list [dirs] in place before it asks for the next triple, and the
    generator descends into what the list holds then.  [mutate] is that
    update.  A failing [os.scandir] of the start directory is skipped
    silently ([onerror] is [None]). *)

Definition triple : Type := string * list node * list string.

Definition subdirs (top : string) (dirs : list node) : list (string * list node) :=
  omap (λ d, match d with
             | Dir name entries => Some (join top name, entries)
             | File _ | DirLink _ => None
             end) dirs.

Fixpoint os_walk_loop (fuel : nat) (mutate : list node → list node)
    (stack : list (string * list node)) : list triple :=
  match fuel, stack with
  | S fuel, (top, entries) :: stack =>
      let dirs := filter (λ e, is_dir e = true) entries in
      let nondirs := entry_name <$> filter (λ e, is_dir e = false) entries in
      let dirs := mutate dirs in
      (top, dirs, nondirs) :: os_walk_loop fuel mutate (subdirs top dirs ++ stack)
  | _, _ => []
  end.

Definition stack_weight (stack : list (string * list node)) : nat :=
  sum_list_with (λ f, S (sum_list_with dir_count f.2)) stack.

Definition os_walk (fs : filesystem) (mutate : list node → list node)
    (top : string) : list triple :=
  match fs top with
  | Some entries =>
      os_walk_loop (stack_weight [(top, entries)]) mutate [(top, entries)]
  | None => []
  end.

(** ** The walker *)

Record FileWalker : Type := {
  root_dir : string;
  extensions : list string;
  ignore_dirs : gset string;
}.

(** [FileWalker.__init__(self, root_dir, extensions=None)]; [None] and the
    empty list are the falsy values of [extensions]. *)
Definition __init__ (cwd root_dir : string) (extensions : option (list string))
    : FileWalker :=
  {| root_dir := abspath cwd root_dir;
     extensions := match extensions with
                   | Some (e :: es) => lower <$> (e :: es)
                   | Some [] | None => [".py"]
                   end;
     ignore_dirs := {[ ".git"; "__pycache__"; "node_modules"; "venv"; "env";
                       "dist"; "build" ]} |}.

(** [any(file.lower().endswith(ext) for ext in self.extensions)] *)
Definition matches (self : FileWalker) (file : string) : bool :=
  existsb (λ ext, endswith (lower file) ext) (extensions self).

(** [dirs[:] = [d for d in dirs if d not in self.ignore_dirs]] *)
Definition prune (self : FileWalker) (dirs : list node) : list node :=
  filter (λ d, entry_name d ∉ ignore_dirs self) dirs.

(** The paths one iteration of the outer loop yields. *)
Definition emit (self : FileWalker) (t : triple) : list string :=
  let '(root, _, files) := t in
  join root <$> filter (λ file, matches self file = true) files.

(** The sequence of paths [walk()] yields when it is consumed to the end. *)
Definition walk (self : FileWalker) (fs : filesystem) : list string :=
  t ← os_walk fs (prune self) (root_dir self); emit self t.

(** The directories the body of the outer loop runs for, in order. *)
Definition visited (self : FileWalker) (fs : filesystem) : list string :=
  (λ t : triple, t.1.1) <$> os_walk fs (prune self) (root_dir self).

(** ** The generator

    [walk()] returns a generator; nothing of the body runs before the first
    [next].  The state of the program is the walker object and the standard
    output; the frame of a suspended generator holds the frame of the
    suspended [os.walk] generator (its current directory, the list [dirs] it
    shares with the loop body, its stack) and the files the inner loop has
    still to look at. *)

Record world : Type := {
  walker : FileWalker;
  stdout : list string;
}.

Record os_walk_frame : Type := {
  top : string;
  dirs : list node;
  stack : list (string * list node);
}.

Inductive generator : Type :=
| Created
| Suspended (ow : os_walk_frame) (files : list string)
| Finished.

(** What one [next] gives: a path, or [StopIteration]. *)
Inductive outcome : Type :=
| Yield (path : string) (g : generator)
| StopIteration.

(** The inner loop, up to its next [yield]: the path and the files left. *)
Fixpoint scan (self : FileWalker) (root : string) (files : list string)
    : option (string * list string) :=
  match files with
  | [] => None
  | file :: files =>
      if matches self file then Some (join root file, files)
      else scan self root files
  end.

(** The outer loop, up to the next [yield]: [os.walk] pops a directory and
    yields its triple, the body prunes [dirs] and scans the files; when no
    file matches, [os.walk] is resumed, pushes the directories left in
    [dirs] and pops again.  [None] when the fuel runs out. *)
Fixpoint advance (fuel : nat) (self : FileWalker)
    (stack : list (string * list node)) : option outcome :=
  match fuel, stack with
  | _, [] => Some StopIteration
  | O, _ :: _ => None
  | S fuel, (top, entries) :: stack =>
      let dirs := filter (λ e, is_dir e = true) entries in
      let files := entry_name <$> filter (λ e, is_dir e = false) entries in
      let dirs := prune self dirs in
      match scan self top files with
      | Some (path, files) =>
          Some (Yield path
                  (Suspended {| top := top; dirs := dirs; stack := stack |} files))
      | None => advance fuel self (subdirs top dirs ++ stack)
      end
  end.

(** [print(f"... Scanning: {self.root_dir}...")] *)
Definition scanning_notice (self : FileWalker) : string :=
  "🔎 Scanning: " +:+ root_dir self +:+ "...".

(** [next(g)] for the generator [g] of [walk()]. *)
Definition next (fs : filesystem) (w : world) (g : generator)
    : option (world * outcome) :=
  match g with
  | Created =>
      let w := {| walker := walker w;
                  stdout := stdout w ++ [scanning_notice (walker w)] |} in
      let stack := match fs (root_dir (walker w)) with
                   | Some entries => [(root_dir (walker w), entries)]
                   | None => []
                   end in
      pair w <$> advance (stack_weight stack) (walker w) stack
  | Suspended ow files =>
      match scan (walker w) (top ow) files with
      | Some (path, files) => Some (w, Yield path (Suspended ow files))
      | None =>
          let stack := subdirs (top ow) (dirs ow) ++ stack ow in
          pair w <$> advance (stack_weight stack) (walker w) stack
      end
  | Finished => Some (w, StopIteration)
  end.

(** At most [n] calls of [next] on a generator: the paths obtained, and the
    program state and the generator afterwards. *)
Fixpoint take_paths (n : nat) (fs : filesystem) (w : world) (g : generator)
    : option (world * generator * list string) :=
  match n with
  | O => Some (w, g, [])
  | S n =>
      match next fs w g with
      | None => None
      | Some (w, StopIteration) => Some (w, Finished, [])
      | Some (w, Yield path g) =>
          '(w, g, paths) ← take_paths n fs w g; Some (w, g, path :: paths)
      end
  end.

(** A use of a walker: a sequence of calls, each either [walk()], which
    makes a new generator and drops the one in use, or [next] on the
    generator in use, with the file system as it is at that call. *)
Inductive action : Type :=
| CallWalk
| CallNext (fs : filesystem).

Definition act (st : world * generator) (a : action)
    : option (world * generator) :=
  match a with
  | CallWalk => Some (st.1, Created)
  | CallNext fs =>
      match next fs st.1 st.2 with
      | Some (w, Yield _ g) => Some (w, g)
      | Some (w, StopIteration) => Some (w, Finished)
      | None => None
      end
  end.

Fixpoint run (st : world * generator) (actions : list action)
    : option (world * generator) :=
  match actions with
  | [] => Some st
  | a :: actions => st ← act st a; run st actions
  end.

(** ** The entries of a tree, for the statements

    [tree_dirs entries] lists the directories of the tree whose top listing
    is [entries], the top one included, each with the chain of directory
    names that leads to it; [tree_entries] lists every entry with the chain
    of the directory it is in. *)

Fixpoint dirs_below (n : node) : list (list string * list node) :=
  match n with
  | Dir name entries =>
      ([name], entries)
      :: (prod_map (cons name) id <$> (e ← entries; dirs_below e))
  | File _ | DirLink _ => []
  end.

Definition tree_dirs (entries : list node) : list (list string * list node) :=
  ([], entries) :: (e ← entries; dirs_below e).

Definition tree_entries (entries : list node) : list (list string * node) :=
  d ← tree_dirs entries; pair d.1 <$> d.2.

(** The path [os.walk] builds for the directory reached through [chain]. *)
Definition dir_path (root : string) (chain : list string) : string :=
  foldl join root chain.

Definition entry_path (root : string) (chain : list string) (name : string)
    : string :=
  join (dir_path root chain) name.

(** [suffix] is a suffix of [s]. *)
Definition is_suffix (suffix s : string) : Prop := ∃ k, s = k +:+ suffix.

(** The directory names the specification lists as pruned. *)
Definition spec_ignored : list string :=
  [".git"; "__pycache__"; "node_modules"; "venv"; "env"; "dist"; "build"].

(** An absolute normalized path: one or two slashes, then components
    separated by single slashes, none of them empty, ["."] or [".."]. *)
Definition proper_component (comp : string) : Prop :=
  comp ≠ "" ∧ comp ≠ "." ∧ comp ≠ ".." ∧ "/"%char ∉ list_ascii_of_string comp.

Definition normalized_absolute (path : string) : Prop :=
  ∃ (n : nat) (comps : list string),
    (n = 1%nat ∨ n = 2%nat) ∧ Forall proper_component comps ∧
    path = slashes n +:+ sep_join comps.

(** The tree with every ignored directory emptied. *)

Fixpoint empty_ignored (ignored : gset string) (n : node) : node :=
  match n with
  | Dir name entries =>
      Dir name (if decide (name ∈ ignored) then []
                else empty_ignored ignored <$> entries)
  | File _ | DirLink _ => n
  end.

Definition empty_ignored_fs (ignored : gset string) (fs : filesystem)
    : filesystem :=
  λ path, match fs path with
          | Some entries => Some (empty_ignored ignored <$> entries)
          | None => None
          end.

(** ** The traversal by recursion on the tree

    [dir_visits] lists the triples of a traversal the way a recursive
    [os.walk] would: the directory first, then each kept subdirectory in
    listing order.  [os_walk_loop] with enough fuel computes the same
    list. *)

Section visits_def.
Context (P : node → Prop) `{!∀ d, Decision (P d)}.

Definition listing (top : string) (entries : list node) : triple :=
  (top, filter P (filter (λ e, is_dir e = true) entries),
   entry_name <$> filter (λ e, is_dir e = false) entries).

Fixpoint sub_visits (top : string) (d : node) : list triple :=
  match d with
  | Dir name entries =>
      if decide (P d)
      then listing (join top name) entries
           :: (e ← entries; sub_visits (join top name) e)
      else []
  | File _ | DirLink _ => []
  end.

Definition dir_visits (top : string) (entries : list node) : list triple :=
  listing top entries :: (e ← entries; sub_visits top e).

End visits_def.

(** What the loop body reads of a triple: the directory and its files. *)

Definition visit (t : triple) : string * list string := (t.1.1, t.2).

(** The paths a traversal yields from a stack of directories to visit. *)
Definition stack_paths (self : FileWalker) (stack : list (string * list node))
    : list string :=
  t ← (f ← stack; dir_visits (λ d, entry_name d ∉ ignore_dirs self) f.1 f.2);
  emit self t.

(** The paths a generator has still to yield; for one that has not
    started, on the file system [fs]. *)
Definition pending (fs : filesystem) (self : FileWalker) (g : generator)
    : list string :=
  match g with
  | Created => walk self fs
  | Suspended ow files =>
      (join (top ow) <$> filter (λ file, matches self file = true) files)
      ++ stack_paths self (subdirs (top ow) (dirs ow) ++ stack ow)
  | Finished => []
  end.

(** ** File systems of the examples *)

Definition proj_fs : filesystem := λ path,
  if String.eqb path "/tmp/proj"
  then Some [ File "a.py"; Dir ".git" [File "hook.py"];
              Dir "sub" [File "b.PY"; File "c.txt"] ]
  else None.

Definition git_fs : filesystem := λ path,
  if String.eqb path "/r"
  then Some [ Dir ".git" [File "hook.py"; Dir "deep" [File "d.py"]];
              Dir ".GIT" [File "x.py"] ]
  else None.

Definition build_fs : filesystem := λ path,
  if String.eqb path "/home/u/build"
  then Some [File "setup.py"; Dir "build" [File "gen.py"]]
  else None.

Definition happy_fs : filesystem := λ path,
  if String.eqb path "/h" then Some [File "happy"; File ".py"; File "a.txt"]
  else None.

(** ** Walkers and trees of the further properties *)

(** The walker with the same extensions and ignore set, rooted at [root]. *)
Definition at_root (self : FileWalker) (root : string) : FileWalker :=
  {| root_dir := root;
     extensions := extensions self;
     ignore_dirs := ignore_dirs self |}.


(** A file system that lists [entries] wherever it is asked. *)
Definition listing_fs (entries : list node) : filesystem :=
  λ _, Some entries.

(** The entries of a tree the loop body yields a path for. *)
Definition yielded (self : FileWalker) (c : list string * node) : Prop :=
  is_dir c.2 = false ∧ matches self (entry_name c.2) = true
  ∧ Forall (λ name, name ∉ ignore_dirs self) c.1.

(** The names of a tree as a file system has them: no entry is named
    [""], ["."] or [".."] or has a separator in its name, and no two entries
    of a directory have the same name. *)
Definition names_proper (tree : list node) : Prop :=
  Forall (λ c, proper_component (entry_name c.2)) (tree_entries tree).

#[global] Instance proper_component_dec comp : Decision (proper_component comp).
Proof. unfold proper_component. apply _. Defined.

Definition names_unique (tree : list node) : Prop :=
  Forall (λ d, NoDup (entry_name <$> d.2)) (tree_dirs tree).

(** What [os.path.join] puts before the name of an entry of [root]. *)
Definition join_base (root : string) : string :=
  if String.eqb root "" then ""
  else if endswith root "/" then root
  else root +:+ "/".

Definition wide_fs : filesystem := λ path,
  if String.eqb path "/w"
  then Some [ File "b.py"; Dir "z" [File "z1.py"; Dir "y" [File "y1.py"]];
              File "a.py"; Dir "build" [File "gen.py"]; DirLink "ln";
              Dir "k" [File "k1.txt"; File "k2.PY"] ]
  else None.

(** * Properties *)

(** Membership in the list of entries of a tree given in full. *)
Ltac tree_member := vm_compute; repeat constructor.

(** ** Strings *)

Lemma endswith_spec s suffix : endswith s suffix = true ↔ is_suffix suffix s.
Proof.
  unfold is_suffix. induction s as [|c s IH]; cbn [endswith].
  - rewrite orb_false_r, String.eqb_eq. split.
    + intros <-. by exists "".
    + intros [k Hk]. destruct k; [done|discriminate].
  - rewrite orb_true_iff, String.eqb_eq, IH. split.
    + intros [<-|[k ->]]; [by exists ""|by exists (String c k)].
    + intros [[|c' k] Hk]; simpl in Hk; [by left|].
      injection Hk as -> ->. right. by exists k.
Qed.

Lemma matches_spec self file :
  matches self file = true
  ↔ ∃ ext, ext ∈ extensions self ∧ is_suffix ext (lower file).
Proof.
  unfold matches. rewrite existsb_exists. split.
  - intros (ext & Hin & Hext). exists ext.
    split; [by apply list_elem_of_In|by apply endswith_spec].
  - intros (ext & Hin & Hext). exists ext.
    split; [by apply list_elem_of_In|by apply endswith_spec].
Qed.

Lemma lower_ascii_idemp c : lower_ascii (lower_ascii c) = lower_ascii c.
Proof. by destruct c as [[] [] [] [] [] [] [] []]. Qed.

Lemma lower_idemp s : lower (lower s) = lower s.
Proof.
  induction s as [|c s IH]; [done|]. simpl. by rewrite lower_ascii_idemp, IH.
Qed.

Lemma startswith_sep s :
  startswith s "/" = true ↔ ∃ s', s = String "/" s'.
Proof.
  destruct s as [|c s]; cbn [startswith].
  - split; [done|]. by intros [? ?].
  - destruct (Ascii.eqb_spec "/" c) as [<-|Hc]; simpl.
    + split; [by eexists|]. by destruct s.
    + split; [done|]. by intros [? [= ->]].
Qed.

(** ** Paths: [normpath] and [abspath] *)

Lemma split_no_sep s comp :
  comp ∈ split s → "/"%char ∉ list_ascii_of_string comp.
Proof.
  revert comp. induction s as [|c s IH]; intros comp; simpl.
  - intros ->%list_elem_of_singleton. simpl. apply not_elem_of_nil.
  - destruct (Ascii.eqb c "/") eqn:Hc.
    + intros [->|Hin]%elem_of_cons; [apply not_elem_of_nil|by apply IH].
    + destruct (split s) as [|comp' comps] eqn:Hs.
      * intros ->%list_elem_of_singleton. simpl.
        intros [<-|[]%elem_of_nil]%elem_of_cons. by rewrite Ascii.eqb_refl in Hc.
      * intros [->|Hin]%elem_of_cons.
        -- simpl. intros [<-|Hin]%elem_of_cons.
           ++ by rewrite Ascii.eqb_refl in Hc.
           ++ revert Hin. apply IH. by left.
        -- apply IH. by right.
Qed.

Lemma normpath_step_proper n comps comp :
  n ≠ 0 → "/"%char ∉ list_ascii_of_string comp →
  Forall proper_component comps →
  Forall proper_component (normpath_step n comps comp).
Proof.
  intros Hn Hsep Hcomps. unfold normpath_step.
  case_bool_decide as Hempty; [done|].
  case_bool_decide as Hdd; simpl.
  - apply Forall_app. split; [done|]. constructor; [|done].
    unfold proper_component. tauto.
  - rewrite bool_decide_eq_false_2 by tauto. simpl.
    case_bool_decide as Hlast; simpl.
    + destruct Hlast as [_ Hlast].
      apply last_Some_elem_of in Hlast.
      rewrite Forall_forall in Hcomps. apply Hcomps in Hlast.
      unfold proper_component in Hlast. tauto.
    + case_bool_decide; [|done].
      revert Hcomps. clear. induction 1 as [|x [|y l] Hx Hl IH]; simpl; auto.
Qed.

Lemma normpath_loop_proper n comps l :
  n ≠ 0 → Forall (λ comp, "/"%char ∉ list_ascii_of_string comp) l →
  Forall proper_component comps →
  Forall proper_component (foldl (normpath_step n) comps l).
Proof.
  intros Hn Hl. revert comps.
  induction Hl as [|comp l Hcomp _ IH]; intros comps Hcomps; [done|].
  simpl. by apply IH, normpath_step_proper.
Qed.

Lemma normpath_absolute s :
  normalized_absolute (normpath (String "/" s)).
Proof.
  unfold normpath.
  change (String.eqb (String "/" s) "") with false. cbv iota.
  change (startswith (String "/" s) "/") with true. cbv iota.
  set (n := if _ && _ then 2 else 1).
  assert (n = 1 ∨ n = 2) as Hn by (subst n; destruct (_ && _); auto).
  set (comps := foldl _ _ _).
  assert (Forall proper_component comps) as Hcomps.
  { apply normpath_loop_proper; [lia| |done].
    apply Forall_forall. intros comp. apply split_no_sep. }
  assert (String.eqb (slashes n +:+ sep_join comps) "" = false) as ->
    by (by destruct Hn as [-> | ->]).
  by exists n, comps.
Qed.

Lemma abspath_absolute cwd path :
  startswith cwd "/" = true → normalized_absolute (abspath cwd path).
Proof.
  intros [cwd' ->]%startswith_sep. unfold abspath.
  destruct (startswith path "/") eqn:Hp.
  - apply startswith_sep in Hp as [path' ->]. apply normpath_absolute.
  - unfold join. rewrite Hp.
    change (String.eqb (String "/" cwd') "") with false. cbv beta iota delta [orb].
    destruct (endswith _ _).
    + exact (normpath_absolute (cwd' +:+ path)).
    + exact (normpath_absolute (cwd' +:+ "/" +:+ path)).
Qed.

(** A normalized absolute path is a fixed point of [normpath]. *)

Lemma split_no_sep_id comp :
  "/"%char ∉ list_ascii_of_string comp → split comp = [comp].
Proof.
  induction comp as [|c comp IH]; [done|]. simpl. intros Hsep.
  destruct (Ascii.eqb_spec c "/") as [->|Hc].
  - destruct Hsep. by left.
  - rewrite IH; [done|]. intros Hin. apply Hsep. by right.
Qed.

Lemma split_app_sep comp rest :
  "/"%char ∉ list_ascii_of_string comp →
  split (comp +:+ String "/" rest) = comp :: split rest.
Proof.
  induction comp as [|c comp IH]; [done|]. simpl. intros Hsep.
  destruct (Ascii.eqb_spec c "/") as [->|Hc].
  - destruct Hsep. by left.
  - rewrite IH; [done|]. intros Hin. apply Hsep. by right.
Qed.

Lemma split_sep_join comps :
  comps ≠ [] → Forall proper_component comps → split (sep_join comps) = comps.
Proof.
  intros Hne Hcomps. induction Hcomps as [|comp comps Hcomp _ IH]; [done|].
  destruct Hcomp as (_ & _ & _ & Hsep).
  destruct comps as [|comp' comps].
  - by apply split_no_sep_id.
  - change (sep_join (comp :: comp' :: comps))
      with (comp +:+ String "/" (sep_join (comp' :: comps))).
    rewrite split_app_sep by done. f_equal. by apply IH.
Qed.

Lemma split_slashes n rest :
  split (slashes n +:+ rest) = replicate n "" ++ split rest.
Proof. induction n as [|n IH]; [done|]. simpl. by rewrite IH. Qed.

Lemma normpath_loop_empty n acc k :
  foldl (normpath_step n) acc (replicate k "") = acc.
Proof. induction k as [|k IH]; [done|]. simpl. exact IH. Qed.

Lemma normpath_loop_append n acc comps :
  Forall proper_component comps →
  foldl (normpath_step n) acc comps = acc ++ comps.
Proof.
  intros Hcomps. revert acc.
  induction Hcomps as [|comp comps (He & Hd & Hdd & _) _ IH]; intros acc.
  - by rewrite app_nil_r.
  - simpl. unfold normpath_step at 2.
    rewrite bool_decide_eq_false_2 by tauto.
    rewrite (bool_decide_eq_true_2 (comp ≠ "..")) by done. simpl.
    by rewrite IH, <-app_assoc.
Qed.

Lemma sep_join_head comp comps :
  proper_component comp →
  ∃ c rest, c ≠ "/"%char ∧ sep_join (comp :: comps) = String c rest.
Proof.
  intros (He & _ & _ & Hsep). destruct comp as [|c comp]; [done|].
  exists c. destruct comps as [|comp' comps]; simpl.
  - exists comp. split; [|done]. intros ->. apply Hsep. by left.
  - eexists. split; [|done]. intros ->. apply Hsep. by left.
Qed.

Lemma normpath_fixed path : normalized_absolute path → normpath path = path.
Proof.
  intros (n & comps & Hn & Hcomps & ->).
  destruct comps as [|comp comps].
  { by destruct Hn as [-> | ->]. }
  destruct (sep_join_head comp comps) as (c & rest & Hc & Hjoin);
    [by inversion Hcomps|].
  assert (Ascii.eqb "/" c = false) as Hc'
    by (by destruct (Ascii.eqb_spec "/" c)).
  unfold normpath.
  assert ((if startswith (slashes n +:+ sep_join (comp :: comps)) "/"
           then if startswith (slashes n +:+ sep_join (comp :: comps)) "//"
                   && negb (startswith (slashes n +:+ sep_join (comp :: comps))
                              "///")
                then 2 else 1
           else 0) = n) as ->.
  { rewrite Hjoin.
    destruct Hn as [-> | ->].
    - change (slashes 1 +:+ ?x) with (String "/" x).
      cbn [startswith]. by rewrite Ascii.eqb_refl, Hc'.
    - change (slashes 2 +:+ ?x) with (String "/" (String "/" x)).
      cbn [startswith]. by rewrite Ascii.eqb_refl, Hc'. }
  rewrite split_slashes, foldl_app, normpath_loop_empty.
  rewrite split_sep_join by done.
  rewrite normpath_loop_append by done. simpl app.
  by destruct Hn as [-> | ->].
Qed.

(** ** Lists *)

Lemma filter_bind {A B} (P : B → Prop) `{!∀ x, Decision (P x)}
    (f : A → list B) (l : list A) :
  filter P (l ≫= f) = l ≫= (λ x, filter P (f x)).
Proof.
  induction l as [|x l IH]; [done|].
  by rewrite !bind_cons, filter_app, IH.
Qed.

Lemma filter_fmap {A B} (P : B → Prop) `{!∀ x, Decision (P x)}
    (f : A → B) (l : list A) :
  filter P (f <$> l) = f <$> filter (λ x, P (f x)) l.
Proof.
  induction l as [|x l IH]; [done|].
  rewrite fmap_cons, !filter_cons, IH. by destruct (decide (P (f x))).
Qed.

Lemma filter_none {A} (P : A → Prop) `{!∀ x, Decision (P x)} (l : list A) :
  (∀ x, ¬ P x) → filter P l = [].
Proof.
  intros HP. induction l as [|x l IH]; [done|].
  by rewrite filter_cons_False.
Qed.

Lemma fmap_bind {A B C} (g : B → C) (f : A → list B) (l : list A) :
  g <$> (l ≫= f) = l ≫= (λ x, g <$> f x).
Proof.
  induction l as [|x l IH]; [done|].
  by rewrite !bind_cons, fmap_app, IH.
Qed.

Lemma bind_ext_Forall {A B} (f g : A → list B) (l : list A) :
  Forall (λ x, f x = g x) l → l ≫= f = l ≫= g.
Proof.
  induction 1 as [|x l Hx _ IH]; [done|].
  by rewrite !bind_cons, Hx, IH.
Qed.

(** ** The loop of [os.walk] and the recursive traversal *)

Section visits.
Context (P : node → Prop) `{!∀ d, Decision (P d)}.

Lemma subdirs_visits top entries :
  (f ← subdirs top (filter P (filter (λ e, is_dir e = true) entries));
     dir_visits P f.1 f.2)
  = (e ← entries; sub_visits P top e).
Proof.
  induction entries as [|e entries IH]; [done|].
  rewrite filter_cons. destruct e as [name|name sub|name]; simpl.
  - exact IH.
  - rewrite filter_cons. destruct (decide (P (Dir name sub))); simpl.
    + do 2 f_equal. exact IH.
    + exact IH.
  - rewrite filter_cons. destruct (decide (P (DirLink name))); simpl; exact IH.
Qed.

Lemma subdirs_weight top entries :
  stack_weight (subdirs top (filter P (filter (λ e, is_dir e = true) entries)))
  ≤ sum_list_with dir_count entries.
Proof.
  unfold stack_weight.
  induction entries as [|e entries IH]; [done|].
  change (sum_list_with ?f (?x :: ?l)) with (f x + sum_list_with f l).
  etrans; [|apply Nat.add_le_mono_l, IH].
  rewrite filter_cons. destruct e as [name|name sub|name]; simpl is_dir.
  - rewrite decide_False by done. lia.
  - rewrite decide_True by done. rewrite filter_cons.
    destruct (decide (P (Dir name sub))); [exact (Nat.le_refl _)|lia].
  - rewrite decide_True by done. rewrite filter_cons.
    destruct (decide (P (DirLink name))); exact (Nat.le_refl _).
Qed.

Lemma stack_weight_app s1 s2 :
  stack_weight (s1 ++ s2) = stack_weight s1 + stack_weight s2.
Proof. apply sum_list_with_app. Qed.

Lemma stack_weight_cons top entries s :
  stack_weight ((top, entries) :: s)
  = S (sum_list_with dir_count entries) + stack_weight s.
Proof. done. Qed.

Lemma os_walk_loop_visits fuel stack :
  stack_weight stack ≤ fuel →
  os_walk_loop fuel (filter P) stack = (f ← stack; dir_visits P f.1 f.2).
Proof.
  revert stack. induction fuel as [|fuel IH]; intros stack Hw.
  - destruct stack as [|[top entries] stack]; [done|].
    rewrite stack_weight_cons in Hw. lia.
  - destruct stack as [|[top entries] stack]; [done|].
    simpl. unfold dir_visits at 1, listing at 1. f_equal.
    rewrite IH.
    + rewrite bind_app. f_equal. apply subdirs_visits.
    + rewrite stack_weight_app. rewrite stack_weight_cons in Hw.
      pose proof (subdirs_weight top entries). lia.
Qed.

End visits.

(** ** The traversal and the entries of the tree *)

Section chains.
Context (Q : string → Prop) `{!∀ s, Decision (Q s)}.
Let P : node → Prop := λ d, Q (entry_name d).

Lemma dir_path_cons root name chain :
  dir_path root (name :: chain) = dir_path (join root name) chain.
Proof. done. Qed.

Lemma sub_visits_dirs_below top d :
  sub_visits P top d
  = (λ c, listing P (dir_path top c.1) c.2)
      <$> filter (λ c, Forall Q c.1) (dirs_below d).
Proof.
  revert top. induction d as [name|name entries IH|name] using node_ind;
    intros top; [done| |done].
  simpl. rewrite filter_cons. unfold P at 1. simpl entry_name.
  destruct (decide (Q name)) as [HQ|HQ].
  - rewrite decide_True by (by repeat constructor).
    rewrite fmap_cons. f_equal.
    rewrite filter_fmap, <-list_fmap_compose, filter_bind, fmap_bind.
    apply bind_ext_Forall. eapply Forall_impl; [exact IH|].
    intros e ->. simpl.
    apply (f_equal (fmap _)), list_filter_iff.
    intros [chain es]. simpl. rewrite Forall_cons. tauto.
  - rewrite decide_False by (by inversion 1).
    rewrite filter_fmap, filter_none; [done|].
    intros [chain es]. simpl. rewrite Forall_cons. tauto.
Qed.

Lemma dir_visits_tree_dirs top entries :
  dir_visits P top entries
  = (λ c, listing P (dir_path top c.1) c.2)
      <$> filter (λ c, Forall Q c.1) (tree_dirs entries).
Proof.
  unfold dir_visits, tree_dirs.
  rewrite filter_cons, decide_True by constructor.
  rewrite fmap_cons. f_equal.
  rewrite filter_bind, fmap_bind.
  apply bind_ext_Forall, Forall_forall. intros e _.
  apply sub_visits_dirs_below.
Qed.

End chains.

Lemma dirs_below_Dir name entries :
  dirs_below (Dir name entries) = prod_map (cons name) id <$> tree_dirs entries.
Proof. done. Qed.

Lemma elem_of_tree_dirs chain es entries :
  (chain, es) ∈ tree_dirs entries
  ↔ (chain = [] ∧ es = entries)
    ∨ ∃ name sub chain', chain = name :: chain' ∧ Dir name sub ∈ entries
        ∧ (chain', es) ∈ tree_dirs sub.
Proof.
  unfold tree_dirs at 1. rewrite elem_of_cons, list_elem_of_bind. split.
  - intros [[= -> ->]|(e & He & Hin)]; [by left|right].
    destruct e as [name|name sub|name]; [by apply elem_of_nil in He| |
      by apply elem_of_nil in He].
    rewrite dirs_below_Dir in He.
    apply list_elem_of_fmap in He as ([chain' es'] & [= -> ->] & He).
    by exists name, sub, chain'.
  - intros [[-> ->]|(name & sub & chain' & -> & Hin & He)]; [by left|right].
    exists (Dir name sub). split; [|done].
    rewrite dirs_below_Dir. apply list_elem_of_fmap.
    by exists (chain', es).
Qed.

Lemma elem_of_tree_entries chain e entries :
  (chain, e) ∈ tree_entries entries
  ↔ ∃ es, (chain, es) ∈ tree_dirs entries ∧ e ∈ es.
Proof.
  unfold tree_entries. rewrite list_elem_of_bind. split.
  - intros ([chain' es] & He & Hd). simpl in He.
    apply list_elem_of_fmap in He as (e' & [= -> ->] & He). by exists es.
  - intros (es & Hd & He). exists (chain, es). split; [|done].
    simpl. apply list_elem_of_fmap. by exists e.
Qed.

(** The entries of a tree are those of its top listing and, for each
    directory in it, those of the tree below that directory. *)
Lemma elem_of_tree_entries_top e entries :
  ([], e) ∈ tree_entries entries ↔ e ∈ entries.
Proof.
  rewrite elem_of_tree_entries. split.
  - intros (es & Hd & He). apply elem_of_tree_dirs in Hd
      as [[_ ->]|(? & ? & ? & [=] & _)]. done.
  - intros He. exists entries. split; [|done].
    apply elem_of_tree_dirs. by left.
Qed.

Lemma elem_of_tree_entries_below name chain e entries :
  (name :: chain, e) ∈ tree_entries entries
  ↔ ∃ sub, Dir name sub ∈ entries ∧ (chain, e) ∈ tree_entries sub.
Proof.
  rewrite elem_of_tree_entries. split.
  - intros (es & Hd & He). apply elem_of_tree_dirs in Hd
      as [[[=] _]|(name' & sub & chain' & [= <- <-] & Hin & Hd)].
    exists sub. split; [done|]. apply elem_of_tree_entries. by exists es.
  - intros (sub & Hin & He). apply elem_of_tree_entries in He as (es & Hd & He).
    exists es. split; [|done]. apply elem_of_tree_dirs. right.
    by exists name, sub, chain.
Qed.

Lemma tree_dirs_snoc chain es name sub tree :
  (chain, es) ∈ tree_dirs tree → Dir name sub ∈ es →
  (chain ++ [name], sub) ∈ tree_dirs tree.
Proof.
  revert tree. induction chain as [|d chain IH]; intros tree Hc Hin.
  - apply elem_of_tree_dirs in Hc as [[_ ->]|(? & ? & ? & [=] & _)].
    apply elem_of_tree_dirs. right. exists name, sub, []. repeat split; [done|].
    apply elem_of_tree_dirs. by left.
  - apply elem_of_tree_dirs in Hc
      as [[[=] _]|(d' & sub' & chain' & [= <- <-] & Hd & Hc)].
    apply elem_of_tree_dirs. right. exists d, sub', (chain ++ [name]).
    repeat split; [done|]. by apply IH.
Qed.

(** ** What [walk] yields *)

Lemma os_walk_visits self fs :
  os_walk fs (prune self) (root_dir self)
  = match fs (root_dir self) with
    | Some entries =>
        dir_visits (λ d, entry_name d ∉ ignore_dirs self) (root_dir self)
          entries
    | None => []
    end.
Proof.
  unfold os_walk, prune. destruct (fs (root_dir self)) as [entries|]; [|done].
  rewrite os_walk_loop_visits by done. by rewrite bind_singleton.
Qed.

Lemma os_walk_tree_dirs self fs entries :
  fs (root_dir self) = Some entries →
  os_walk fs (prune self) (root_dir self)
  = (λ c, listing (λ d, entry_name d ∉ ignore_dirs self)
            (dir_path (root_dir self) c.1) c.2)
      <$> filter (λ c, Forall (λ name, name ∉ ignore_dirs self) c.1)
            (tree_dirs entries).
Proof.
  intros Hfs. unfold os_walk, prune. rewrite Hfs.
  rewrite os_walk_loop_visits by done.
  rewrite bind_singleton.
  exact (dir_visits_tree_dirs (λ name, name ∉ ignore_dirs self)
           (root_dir self) entries).
Qed.

Lemma visited_tree_dirs self fs tree :
  fs (root_dir self) = Some tree →
  visited self fs
  = (λ c, dir_path (root_dir self) c.1)
      <$> filter (λ c, Forall (λ name, name ∉ ignore_dirs self) c.1)
            (tree_dirs tree).
Proof.
  intros Hfs. unfold visited. rewrite (os_walk_tree_dirs _ _ _ Hfs).
  by rewrite <-list_fmap_compose.
Qed.

Lemma elem_of_emit self root ds files p :
  p ∈ emit self (root, ds, files)
  ↔ ∃ file, file ∈ files ∧ matches self file = true ∧ p = join root file.
Proof.
  unfold emit. rewrite list_elem_of_fmap. split.
  - intros (file & -> & Hin). apply list_elem_of_filter in Hin as [Hm Hin].
    by exists file.
  - intros (file & Hin & Hm & ->). exists file. split; [done|].
    by apply list_elem_of_filter.
Qed.

Lemma elem_of_walk self fs entries p :
  fs (root_dir self) = Some entries →
  p ∈ walk self fs
  ↔ ∃ chain e,
      (chain, e) ∈ tree_entries entries ∧ is_dir e = false
      ∧ matches self (entry_name e) = true
      ∧ Forall (λ name, name ∉ ignore_dirs self) chain
      ∧ p = entry_path (root_dir self) chain (entry_name e).
Proof.
  intros Hfs. unfold walk. rewrite (os_walk_tree_dirs _ _ _ Hfs).
  rewrite list_elem_of_bind. split.
  - intros (t & Hp & Ht).
    apply list_elem_of_fmap in Ht as ([chain es] & -> & Hc).
    apply list_elem_of_filter in Hc as [Hchain Hc]. simpl in Hchain.
    apply elem_of_emit in Hp as (file & Hfile & Hm & ->).
    apply list_elem_of_fmap in Hfile as (e & -> & He).
    apply list_elem_of_filter in He as [Hnd He].
    exists chain, e. repeat split; try done.
    apply elem_of_tree_entries. by exists es.
  - intros (chain & e & He & Hnd & Hm & Hchain & ->).
    apply elem_of_tree_entries in He as (es & Hc & He).
    eexists. split; last first.
    + apply list_elem_of_fmap. exists (chain, es). split; [done|].
      by apply list_elem_of_filter.
    + apply elem_of_emit. exists (entry_name e). split; [|done].
      apply list_elem_of_fmap. exists e. split; [done|].
      by apply list_elem_of_filter.
Qed.

(** ** The contents of ignored directories *)

Lemma emit_visit self l1 l2 :
  visit <$> l1 = visit <$> l2 → l1 ≫= emit self = l2 ≫= emit self.
Proof.
  revert l2. induction l1 as [|[[root1 ds1] files1] l1 IH];
    intros [|[[root2 ds2] files2] l2]; try done.
  rewrite !fmap_cons. intros [= -> -> Hl]. rewrite !bind_cons.
  by rewrite (IH _ Hl).
Qed.

Section empty_ignored.
Context (ignored : gset string).
Let P : node → Prop := λ d, entry_name d ∉ ignored.
Let E : node → node := empty_ignored ignored.

Lemma empty_ignored_name n : entry_name (E n) = entry_name n.
Proof. by destruct n. Qed.

Lemma empty_ignored_is_dir n : is_dir (E n) = is_dir n.
Proof. by destruct n. Qed.

Lemma empty_ignored_nondirs (entries : list node) :
  entry_name <$> filter (λ e, is_dir e = false) (E <$> entries)
  = entry_name <$> filter (λ e, is_dir e = false) entries.
Proof.
  induction entries as [|e entries IH]; [done|].
  rewrite fmap_cons, !filter_cons, empty_ignored_is_dir.
  destruct (decide (is_dir e = false)); [|done].
  by rewrite !fmap_cons, empty_ignored_name, IH.
Qed.

Lemma sub_visits_empty_ignored top d :
  visit <$> sub_visits P top (E d) = visit <$> sub_visits P top d.
Proof.
  revert top. induction d as [name|name entries IH|name] using node_ind;
    intros top; [done| |done].
  simpl. destruct (decide (name ∈ ignored)) as [Hign|Hkeep].
  { destruct (decide (P (Dir name []))) as [H1|_]; [by destruct H1|].
    by destruct (decide (P (Dir name entries))) as [H2|_]; [destruct H2|]. }
  rewrite !decide_True by done. rewrite !fmap_cons. f_equal.
  - unfold visit, listing. simpl. by rewrite empty_ignored_nondirs.
  - rewrite list_fmap_bind, !fmap_bind. apply bind_ext_Forall.
    eapply Forall_impl; [exact IH|]. intros e He. apply He.
Qed.

Lemma dir_visits_empty_ignored top (entries : list node) :
  visit <$> dir_visits P top (E <$> entries)
  = visit <$> dir_visits P top entries.
Proof.
  unfold dir_visits. rewrite !fmap_cons. f_equal.
  - unfold visit, listing. simpl. by rewrite empty_ignored_nondirs.
  - rewrite list_fmap_bind, !fmap_bind. apply bind_ext_Forall, Forall_forall.
    intros e _. apply sub_visits_empty_ignored.
Qed.

End empty_ignored.

(** Emptying every ignored directory of the tree changes neither the
    directories visited nor the paths yielded. *)
Lemma walk_empty_ignored self fs :
  visited self (empty_ignored_fs (ignore_dirs self) fs) = visited self fs
  ∧ walk self (empty_ignored_fs (ignore_dirs self) fs) = walk self fs.
Proof.
  assert (visit <$> os_walk (empty_ignored_fs (ignore_dirs self) fs)
                      (prune self) (root_dir self)
          = visit <$> os_walk fs (prune self) (root_dir self)) as Hvisit.
  { rewrite !os_walk_visits. unfold empty_ignored_fs.
    destruct (fs (root_dir self)) as [entries|]; [|done]. simpl.
    apply dir_visits_empty_ignored. }
  split.
  - unfold visited.
    rewrite !(list_fmap_compose visit fst). by rewrite Hvisit.
  - unfold walk. by apply emit_visit.
Qed.

(** ** The generator and the sequence [walk] *)

Lemma scan_None self root files :
  scan self root files = None →
  filter (λ file, matches self file = true) files = [].
Proof.
  induction files as [|file files IH]; [done|]. simpl.
  destruct (matches self file) eqn:Hm; [done|]. intros Hs.
  rewrite filter_cons_False by (by rewrite Hm). auto.
Qed.

Lemma scan_Some self root files path files' :
  scan self root files = Some (path, files') →
  join root <$> filter (λ file, matches self file = true) files
  = path :: (join root <$> filter (λ file, matches self file = true) files').
Proof.
  induction files as [|file files IH]; [done|]. simpl.
  destruct (matches self file) eqn:Hm.
  - intros [= <- <-]. by rewrite filter_cons_True.
  - intros Hs. rewrite filter_cons_False by (by rewrite Hm). auto.
Qed.

Lemma stack_paths_cons self top entries stack :
  stack_paths self ((top, entries) :: stack)
  = (join top <$> filter (λ file, matches self file = true)
       (entry_name <$> filter (λ e, is_dir e = false) entries))
    ++ stack_paths self
         (subdirs top (prune self (filter (λ e, is_dir e = true) entries))
          ++ stack).
Proof.
  unfold stack_paths. rewrite bind_cons, !bind_app. simpl fst. simpl snd.
  unfold dir_visits at 1. rewrite bind_cons, <-app_assoc. f_equal. f_equal.
  unfold prune. by rewrite subdirs_visits.
Qed.

(** With fuel for every directory on the stack [advance] does not run out,
    and it yields the first path of the directories on the stack. *)
Lemma advance_spec fs fuel self stack :
  stack_weight stack ≤ fuel →
  match advance fuel self stack with
  | Some StopIteration => stack_paths self stack = []
  | Some (Yield path g) => stack_paths self stack = path :: pending fs self g
  | None => False
  end.
Proof.
  revert stack. induction fuel as [|fuel IH]; intros stack Hw.
  - destruct stack as [|[top entries] stack]; [done|].
    rewrite stack_weight_cons in Hw. lia.
  - destruct stack as [|[top entries] stack]; [done|].
    rewrite stack_paths_cons. simpl.
    destruct (scan self top _) as [[path files]|] eqn:Hs.
    + rewrite (scan_Some _ _ _ _ _ Hs). done.
    + rewrite (scan_None _ _ _ Hs). simpl. apply IH.
      rewrite stack_weight_app. rewrite stack_weight_cons in Hw.
      pose proof (subdirs_weight (λ d, entry_name d ∉ ignore_dirs self)
                    top entries).
      unfold prune. lia.
Qed.

Lemma walk_stack_paths self fs :
  walk self fs
  = stack_paths self match fs (root_dir self) with
                     | Some entries => [(root_dir self, entries)]
                     | None => []
                     end.
Proof.
  unfold walk, os_walk, stack_paths, prune.
  destruct (fs (root_dir self)) as [entries|]; [|done].
  by rewrite os_walk_loop_visits.
Qed.

(** [next] never runs out of fuel, leaves the walker as it is, and gives
    the first pending path, or [StopIteration] when none is pending. *)
Lemma next_spec fs w g :
  ∃ w' out,
    next fs w g = Some (w', out) ∧ walker w' = walker w ∧
    match out with
    | Yield path g' =>
        pending fs (walker w) g = path :: pending fs (walker w) g'
    | StopIteration => pending fs (walker w) g = []
    end.
Proof.
  destruct g as [|ow files|]; simpl.
  - rewrite walk_stack_paths.
    set (stack := match fs _ with Some _ => _ | None => _ end).
    pose proof (advance_spec fs (stack_weight stack) (walker w) stack
                  (Nat.le_refl _)) as H.
    destruct (advance _ _ stack) as [[path g'|]|]; [| |done].
    + eexists _, _. by split.
    + eexists _, _. by split.
  - destruct (scan (walker w) (top ow) files) as [[path files']|] eqn:Hs.
    + eexists _, _. split; [done|]. split; [done|]. simpl.
      by rewrite (scan_Some _ _ _ _ _ Hs).
    + rewrite (scan_None _ _ _ Hs). simpl.
      set (stack := subdirs (top ow) (dirs ow) ++ _).
      pose proof (advance_spec fs (stack_weight stack) (walker w) stack
                    (Nat.le_refl _)) as H.
      destruct (advance _ _ stack) as [[path g'|]|]; [| |done].
      * eexists _, _. by split.
      * eexists _, _. by split.
  - eexists _, _. by split.
Qed.

(** [n] calls of [next] give the first [n] pending paths; the walker is as
    it was, and the generator is finished once [next] was called more often
    than paths were pending. *)
Lemma take_paths_spec n fs w g :
  ∃ w' g',
    take_paths n fs w g = Some (w', g', take n (pending fs (walker w) g))
    ∧ walker w' = walker w
    ∧ pending fs (walker w) g' = drop n (pending fs (walker w) g)
    ∧ (length (pending fs (walker w) g) < n → g' = Finished).
Proof.
  revert w g. induction n as [|n IH]; intros w g.
  - exists w, g. repeat split. simpl. lia.
  - destruct (next_spec fs w g) as (w1 & out & Hnext & Hself & Hout).
    simpl. rewrite Hnext. destruct out as [path g1|].
    + destruct (IH w1 g1) as (w' & g' & Htake & Hself' & Hdrop & Hfin).
      rewrite Htake. simpl. rewrite Hself in *. rewrite Hout. simpl.
      exists w', g'. repeat split; [done..|].
      intros Hlen. apply Hfin. lia.
    + rewrite Hout. by exists w1, Finished.
Qed.

Lemma take_paths_Finished n fs w w' paths :
  take_paths n fs w Created = Some (w', Finished, paths) →
  paths = walk (walker w) fs ∧ walker w' = walker w.
Proof.
  intros Htake.
  destruct (take_paths_spec n fs w Created) as (w1 & g1 & H & Hself & Hdrop & _).
  rewrite Htake in H. injection H as <- <- ->. split; [|done].
  simpl in Hdrop. simpl. symmetry in Hdrop.
  rewrite <-(take_drop n (walk (walker w) fs)) at 2.
  by rewrite Hdrop, app_nil_r.
Qed.

Lemma take_paths_all fs w :
  ∃ w', take_paths (S (length (walk (walker w) fs))) fs w Created
        = Some (w', Finished, walk (walker w) fs)
        ∧ walker w' = walker w.
Proof.
  destruct (take_paths_spec (S (length (walk (walker w) fs))) fs w Created)
    as (w' & g' & H & Hself & _ & Hfin).
  simpl pending in *. rewrite Hfin in H by lia.
  rewrite take_ge in H by lia. by exists w'.
Qed.

Lemma act_self st a :
  ∃ st', act st a = Some st' ∧ walker st'.1 = walker st.1.
Proof.
  destruct a as [|fs]; simpl.
  - by eexists.
  - destruct (next_spec fs st.1 st.2) as (w' & out & -> & Hself & _).
    destruct out; by eexists.
Qed.

(** ** The walker [__init__] builds *)

Lemma init_ignore_dirs cwd root exts name :
  name ∈ ignore_dirs (__init__ cwd root exts) ↔ name ∈ spec_ignored.
Proof.
  unfold spec_ignored. simpl.
  rewrite !elem_of_union, !elem_of_singleton, !elem_of_cons, elem_of_nil.
  tauto.
Qed.

Lemma init_chain_kept cwd root exts chain :
  Forall (λ name, name ∉ ignore_dirs (__init__ cwd root exts)) chain
  ↔ Forall (λ name, name ∉ spec_ignored) chain.
Proof.
  apply Forall_proper; [|done]. intros name. by rewrite init_ignore_dirs.
Qed.

(** ** The scenarios of the specification *)

Example walk_proj :
  walk (__init__ "/" "/tmp/proj" None) proj_fs
  = ["/tmp/proj/a.py"; "/tmp/proj/sub/b.PY"].
Proof. vm_compute. reflexivity. Qed.

Example walk_py_md :
  walk (__init__ "/" "/docs" (Some [".py"; ".md"]))
    (λ path, if String.eqb path "/docs"
             then Some [File "x.md"; File "y.py"; File "z.rst"] else None)
  = ["/docs/x.md"; "/docs/y.py"].
Proof. vm_compute. reflexivity. Qed.

Example matches_FOO_PY cwd root :
  matches (__init__ cwd root (Some [".py"])) "FOO.PY" = true.
Proof. reflexivity. Qed.

Example walk_build :
  walk (__init__ "/home/u" "build" None) build_fs = ["/home/u/build/setup.py"].
Proof. vm_compute. reflexivity. Qed.

Example walk_happy :
  walk (__init__ "/" "/h" (Some ["py"])) happy_fs = ["/h/happy"; "/h/.py"].
Proof. vm_compute. reflexivity. Qed.

(** * The properties of the specification *)

(** C1. For every directory tree and every configured extension list, the
    paths [walk] yields are exactly the paths of the non-directory entries of
    the tree whose lowercased name ends with one of the extensions and that
    are not below (at any depth) a directory named [.git], [__pycache__],
    [node_modules], [venv], [env], [dist] or [build].  The tree is what lies
    below the root, and [chain] lists the directories of the tree above an
    entry; the extension list is the one the walker holds. *)
Theorem walk_emits_exactly (self : FileWalker) (fs : filesystem)
    (tree : list node) (path : string) :
  (∀ name, name ∈ ignore_dirs self ↔ name ∈ spec_ignored) →
  fs (root_dir self) = Some tree →
  path ∈ walk self fs
  ↔ ∃ chain e,
      (chain, e) ∈ tree_entries tree ∧ is_dir e = false
      ∧ (∃ ext, ext ∈ extensions self ∧ is_suffix ext (lower (entry_name e)))
      ∧ Forall (λ name, name ∉ spec_ignored) chain
      ∧ path = entry_path (root_dir self) chain (entry_name e).
Proof.
  intros Hign Hfs. rewrite (elem_of_walk _ _ _ _ Hfs).
  apply exist_proper; intros chain. apply exist_proper; intros e.
  rewrite matches_spec.
  assert (Forall (λ name, name ∉ ignore_dirs self) chain
          ↔ Forall (λ name, name ∉ spec_ignored) chain) as ->; [|done].
  apply Forall_proper; [|done]. intros name. by rewrite Hign.
Qed.

Lemma walk_emits_exactly_witness :
  let self := __init__ "/" "/tmp/proj" None in
  let tree := [ File "a.py"; Dir ".git" [File "hook.py"];
                Dir "sub" [File "b.PY"; File "c.txt"] ] in
  (∀ name, name ∈ ignore_dirs self ↔ name ∈ spec_ignored)
  ∧ proj_fs (root_dir self) = Some tree
  ∧ ("/tmp/proj/sub/b.PY" ∈ walk self proj_fs
     ↔ ∃ chain e,
         (chain, e) ∈ tree_entries tree ∧ is_dir e = false
         ∧ (∃ ext, ext ∈ extensions self
                   ∧ is_suffix ext (lower (entry_name e)))
         ∧ Forall (λ name, name ∉ spec_ignored) chain
         ∧ "/tmp/proj/sub/b.PY"
           = entry_path (root_dir self) chain (entry_name e)).
Proof.
  intros self tree.
  assert (∀ name, name ∈ ignore_dirs self ↔ name ∈ spec_ignored) as Hign
    by apply init_ignore_dirs.
  assert (proj_fs (root_dir self) = Some tree) as Hfs by reflexivity.
  split; [exact Hign|]. split; [exact Hfs|].
  exact (walk_emits_exactly self proj_fs tree "/tmp/proj/sub/b.PY" Hign Hfs).
Defined.

(** C2. Matching ignores the case of the file name: the test the loop
    applies to a file name holds exactly when the lowercased name ends with
    one of the walker's extensions (which [__init__] has lowercased); every
    file the loop looks at that passes it is yielded, and so is every such
    file of the tree in a directory that is not pruned. *)
Theorem walk_matches_any_case (cwd root : string) (exts : option (list string))
    (fs : filesystem) :
  let self := __init__ cwd root exts in
  (∀ file, matches self file = true
           ↔ ∃ ext, ext ∈ extensions self ∧ is_suffix ext (lower file))
  ∧ (∀ dir ds files file ext,
       (dir, ds, files) ∈ os_walk fs (prune self) (root_dir self) →
       file ∈ files →
       ext ∈ extensions self → is_suffix ext (lower file) →
       join dir file ∈ walk self fs)
  ∧ (∀ tree chain name ext,
       fs (root_dir self) = Some tree →
       (chain, File name) ∈ tree_entries tree →
       Forall (λ d, d ∉ spec_ignored) chain →
       ext ∈ extensions self → is_suffix ext (lower name) →
       entry_path (root_dir self) chain name ∈ walk self fs).
Proof.
  intros self. split; [|split].
  - intros file. apply matches_spec.
  - intros dir ds files file ext Ht Hfile Hext Hsuf.
    unfold walk. apply list_elem_of_bind. exists (dir, ds, files).
    split; [|done]. apply elem_of_emit. exists file.
    repeat split; [done|]. apply matches_spec. by exists ext.
  - intros tree chain name ext Hfs He Hchain Hext Hsuf.
    apply (elem_of_walk _ _ _ _ Hfs). exists chain, (File name).
    repeat split; [done| |by apply (init_chain_kept cwd root exts)].
    apply matches_spec. by exists ext.
Qed.

Lemma walk_matches_any_case_witness :
  let self := __init__ "/" "/tmp/proj" None in
  let tree := [ File "a.py"; Dir ".git" [File "hook.py"];
                Dir "sub" [File "b.PY"; File "c.txt"] ] in
  proj_fs (root_dir self) = Some tree
  ∧ (["sub"], File "b.PY") ∈ tree_entries tree
  ∧ Forall (λ d, d ∉ spec_ignored) ["sub"]
  ∧ ".py" ∈ extensions self
  ∧ is_suffix ".py" (lower "b.PY")
  ∧ "/tmp/proj/sub/b.PY" ∈ walk self proj_fs.
Proof.
  intros self tree.
  assert (proj_fs (root_dir self) = Some tree) as Hfs by reflexivity.
  assert ((["sub"], File "b.PY") ∈ tree_entries tree) as He by tree_member.
  assert (Forall (λ d, d ∉ spec_ignored) ["sub"]) as Hchain by compute_done.
  assert (".py" ∈ extensions self) as Hext by compute_done.
  assert (is_suffix ".py" (lower "b.PY")) as Hsuf by (by exists "b").
  repeat (split; [assumption|]).
  exact (proj2 (proj2 (walk_matches_any_case "/" "/tmp/proj" None proj_fs))
           tree ["sub"] "b.PY" ".py" Hfs He Hchain Hext Hsuf).
Defined.

(** C3. Pruning compares the directory name with the ignore set by exact,
    case-sensitive string equality, before the descent: the directories
    visited are exactly those reached through names outside the set, every
    yielded path lies in such a directory, and a directory whose name is not
    in the set (as [.GIT], which differs from [.git] in case only) is
    visited and its matching files are yielded.  What an ignored directory
    contains plays no part: on the tree with every ignored directory
    emptied, the same directories are visited and the same paths yielded. *)
Theorem prune_exact_before_descent (cwd root : string)
    (exts : option (list string)) (fs : filesystem) (tree : list node) :
  let self := __init__ cwd root exts in
  fs (root_dir self) = Some tree →
  visited self fs
  = (λ c, dir_path (root_dir self) c.1)
      <$> filter (λ c, Forall (λ d, d ∉ spec_ignored) c.1) (tree_dirs tree)
  ∧ (∀ path, path ∈ walk self fs →
       ∃ chain e, (chain, e) ∈ tree_entries tree
                  ∧ Forall (λ d, d ∉ spec_ignored) chain
                  ∧ path = entry_path (root_dir self) chain (entry_name e))
  ∧ (∀ chain d sub name,
       (chain, Dir d sub) ∈ tree_entries tree →
       Forall (λ d, d ∉ spec_ignored) chain →
       d ∉ spec_ignored →
       File name ∈ sub → matches self name = true →
       dir_path (root_dir self) (chain ++ [d]) ∈ visited self fs
       ∧ entry_path (root_dir self) (chain ++ [d]) name ∈ walk self fs)
  ∧ visited self (empty_ignored_fs (ignore_dirs self) fs) = visited self fs
  ∧ walk self (empty_ignored_fs (ignore_dirs self) fs) = walk self fs
  ∧ ".git" ∈ ignore_dirs self ∧ ".GIT" ∉ ignore_dirs self.
Proof.
  intros self Hfs. split; [|split; [|split; [|split; [|split]]]].
  - rewrite (visited_tree_dirs _ _ _ Hfs). f_equal.
    apply list_filter_iff. intros [chain es].
    apply (init_chain_kept cwd root exts).
  - intros path Hp. apply (elem_of_walk _ _ _ _ Hfs) in Hp
      as (chain & e & He & _ & _ & Hchain & ->).
    exists chain, e. repeat split; [done|].
    by apply (init_chain_kept cwd root exts).
  - intros chain d sub name Hd Hchain Hkeep Hname Hm.
    apply elem_of_tree_entries in Hd as (es & Hc & Hd).
    pose proof (tree_dirs_snoc _ _ _ _ _ Hc Hd) as Hsub.
    assert (Forall (λ name, name ∉ ignore_dirs self) (chain ++ [d])) as Hall.
    { apply (init_chain_kept cwd root exts), Forall_app.
      split; [done|]. by constructor. }
    split.
    + rewrite (visited_tree_dirs _ _ _ Hfs). apply list_elem_of_fmap.
      exists (chain ++ [d], sub). split; [done|].
      by apply list_elem_of_filter.
    + apply (elem_of_walk _ _ _ _ Hfs). exists (chain ++ [d]), (File name).
      repeat split; [|done..]. apply elem_of_tree_entries. by exists sub.
  - apply walk_empty_ignored.
  - apply walk_empty_ignored.
  - split.
    + apply (init_ignore_dirs cwd root exts). compute_done.
    + intros Hin. apply (init_ignore_dirs cwd root exts) in Hin.
      revert Hin. compute_done.
Qed.

Lemma prune_exact_before_descent_witness :
  let self := __init__ "/" "/r" None in
  let tree := [ Dir ".git" [File "hook.py"; Dir "deep" [File "d.py"]];
                Dir ".GIT" [File "x.py"] ] in
  git_fs (root_dir self) = Some tree
  ∧ visited self git_fs = ["/r"; "/r/.GIT"]
  ∧ walk self git_fs = ["/r/.GIT/x.py"]
  ∧ "/r/.GIT/x.py" ∈ walk self git_fs.
Proof.
  intros self tree.
  assert (git_fs (root_dir self) = Some tree) as Hfs by reflexivity.
  split; [exact Hfs|].
  destruct (prune_exact_before_descent "/" "/r" None git_fs tree Hfs)
    as (Hvisited & _ & Hdesc & _ & _ & _).
  split; [etrans; [exact Hvisited|vm_compute; reflexivity]|].
  split; [vm_compute; reflexivity|].
  refine (proj2 (Hdesc [] ".GIT" [File "x.py"] "x.py" _ _ _ _ _)).
  - tree_member.
  - constructor.
  - compute_done.
  - repeat constructor.
  - reflexivity.
Defined.

(** C4. Without an extensions argument, or with an empty one, the walker
    has the single extension [.py], and a traversal yields exactly the files
    outside pruned directories whose lowercased name ends with [.py]. *)
Theorem default_extension_py (cwd root : string) (exts : option (list string))
    (fs : filesystem) (tree : list node) (path : string) :
  let self := __init__ cwd root exts in
  exts = None ∨ exts = Some [] →
  fs (root_dir self) = Some tree →
  extensions self = [".py"]
  ∧ (path ∈ walk self fs
     ↔ ∃ chain e,
         (chain, e) ∈ tree_entries tree ∧ is_dir e = false
         ∧ is_suffix ".py" (lower (entry_name e))
         ∧ Forall (λ name, name ∉ spec_ignored) chain
         ∧ path = entry_path (root_dir self) chain (entry_name e)).
Proof.
  intros self Hexts Hfs.
  assert (extensions self = [".py"]) as Hpy by (by destruct Hexts as [->| ->]).
  split; [done|].
  rewrite (elem_of_walk _ _ _ _ Hfs).
  apply exist_proper; intros chain. apply exist_proper; intros e.
  rewrite matches_spec, Hpy. unfold self at 1.
  rewrite (init_chain_kept cwd root exts).
  assert ((∃ ext, ext ∈ [".py"] ∧ is_suffix ext (lower (entry_name e)))
          ↔ is_suffix ".py" (lower (entry_name e))) as ->; [|done].
  split.
  - by intros (ext & ->%list_elem_of_singleton & ?).
  - intros ?. exists ".py". split; [|done]. by apply list_elem_of_singleton.
Qed.

Lemma default_extension_py_witness :
  let self := __init__ "/" "/tmp/proj" (Some []) in
  let tree := [ File "a.py"; Dir ".git" [File "hook.py"];
                Dir "sub" [File "b.PY"; File "c.txt"] ] in
  ((Some [] : option (list string)) = None
   ∨ (Some [] : option (list string)) = Some [])
  ∧ proj_fs (root_dir self) = Some tree
  ∧ extensions self = [".py"]
  ∧ ("/tmp/proj/sub/c.txt" ∈ walk self proj_fs
     ↔ ∃ chain e,
         (chain, e) ∈ tree_entries tree ∧ is_dir e = false
         ∧ is_suffix ".py" (lower (entry_name e))
         ∧ Forall (λ name, name ∉ spec_ignored) chain
         ∧ "/tmp/proj/sub/c.txt"
           = entry_path (root_dir self) chain (entry_name e)).
Proof.
  intros self tree.
  assert ((Some [] : option (list string)) = None
          ∨ (Some [] : option (list string)) = Some []) as Hexts
    by (right; reflexivity).
  assert (proj_fs (root_dir self) = Some tree) as Hfs by reflexivity.
  split; [exact Hexts|]. split; [exact Hfs|].
  exact (default_extension_py "/" "/tmp/proj" (Some []) proj_fs tree
           "/tmp/proj/sub/c.txt" Hexts Hfs).
Defined.

(** C5. Two traversals of the same tree, one after the other and each
    consumed to the end, yield the same paths (in the same order, the
    listing order being the same), and each of them does come to its end. *)
Theorem walk_twice_same_paths (fs : filesystem) (w : world) :
  (∃ n1 n2 w1 w2 paths,
     take_paths n1 fs w Created = Some (w1, Finished, paths)
     ∧ take_paths n2 fs w1 Created = Some (w2, Finished, paths))
  ∧ ∀ n1 n2 w1 w2 paths1 paths2,
      take_paths n1 fs w Created = Some (w1, Finished, paths1) →
      take_paths n2 fs w1 Created = Some (w2, Finished, paths2) →
      paths1 = paths2
      ∧ (list_to_set paths1 : gset string) = list_to_set paths2.
Proof.
  split.
  - destruct (take_paths_all fs w) as (w1 & H1 & Hself1).
    destruct (take_paths_all fs w1) as (w2 & H2 & Hself2).
    rewrite Hself1 in H2. by eexists _, _, w1, w2, _.
  - intros n1 n2 w1 w2 paths1 paths2 H1 H2.
    apply take_paths_Finished in H1 as [-> Hself1].
    apply take_paths_Finished in H2 as [-> Hself2].
    by rewrite Hself1.
Qed.

Lemma walk_twice_same_paths_witness :
  let self := __init__ "/" "/tmp/proj" None in
  let w := {| walker := self; stdout := [] |} in
  let w1 := {| walker := self; stdout := [scanning_notice self] |} in
  let w2 := {| walker := self;
               stdout := [scanning_notice self; scanning_notice self] |} in
  let paths := ["/tmp/proj/a.py"; "/tmp/proj/sub/b.PY"] in
  take_paths 3 proj_fs w Created = Some (w1, Finished, paths)
  ∧ take_paths 5 proj_fs w1 Created = Some (w2, Finished, paths)
  ∧ paths = paths
  ∧ (list_to_set paths : gset string) = list_to_set paths.
Proof.
  intros self w w1 w2 paths.
  assert (take_paths 3 proj_fs w Created = Some (w1, Finished, paths)) as H1
    by (vm_compute; reflexivity).
  assert (take_paths 5 proj_fs w1 Created = Some (w2, Finished, paths)) as H2
    by (vm_compute; reflexivity).
  split; [exact H1|]. split; [exact H2|].
  exact (proj2 (walk_twice_same_paths proj_fs w) 3 5 w1 w2 paths paths H1 H2).
Defined.



(** C7. On an empty root directory the traversal yields nothing: the first
    [next] prints the notice and ends with [StopIteration], no error, and
    however many paths are asked for, none is obtained. *)
Theorem empty_root_yields_nothing (fs : filesystem) (w : world) :
  fs (root_dir (walker w)) = Some [] →
  let w' := {| walker := walker w;
               stdout := stdout w ++ [scanning_notice (walker w)] |} in
  walk (walker w) fs = []
  ∧ next fs w Created = Some (w', StopIteration)
  ∧ ∀ n, take_paths (S n) fs w Created = Some (w', Finished, []).
Proof.
  intros Hfs w'.
  assert (next fs w Created = Some (w', StopIteration)) as Hnext.
  { unfold next. simpl. rewrite Hfs. reflexivity. }
  split; [|split; [done|]].
  - unfold walk, os_walk. rewrite Hfs. reflexivity.
  - intros n. cbn [take_paths]. by rewrite Hnext.
Qed.

Lemma empty_root_yields_nothing_witness :
  let fs : filesystem :=
    λ path, if String.eqb path "/empty" then Some [] else None in
  let w := {| walker := __init__ "/" "/empty" None; stdout := [] |} in
  let w' := {| walker := walker w; stdout := [scanning_notice (walker w)] |} in
  fs (root_dir (walker w)) = Some []
  ∧ walk (walker w) fs = []
  ∧ next fs w Created = Some (w', StopIteration)
  ∧ ∀ n, take_paths (S n) fs w Created = Some (w', Finished, []).
Proof.
  intros fs w w'.
  assert (fs (root_dir (walker w)) = Some []) as Hfs by reflexivity.
  split; [exact Hfs|].
  exact (empty_root_yields_nothing fs w Hfs).
Defined.

(** C8. No use of the walker changes its configuration: after any sequence
    of [walk()] and [next] calls, with generators consumed to the end or
    dropped before, [root_dir], [extensions] and [ignore_dirs] are what they
    were, and a later traversal yields what the configuration yields. *)
Theorem configuration_unchanged (actions : list action) (w : world)
    (g : generator) :
  ∃ w' g',
    run (w, g) actions = Some (w', g')
    ∧ root_dir (walker w') = root_dir (walker w)
    ∧ extensions (walker w') = extensions (walker w)
    ∧ ignore_dirs (walker w') = ignore_dirs (walker w)
    ∧ ∀ fs n w'' paths,
        take_paths n fs w' Created = Some (w'', Finished, paths) →
        paths = walk (walker w) fs.
Proof.
  assert (∃ w' g', run (w, g) actions = Some (w', g') ∧ walker w' = walker w)
    as (w' & g' & Hrun & Hself).
  { revert w g. induction actions as [|a actions IH]; intros w g.
    - by exists w, g.
    - destruct (act_self (w, g) a) as ([w1 g1] & Hact & Hself1).
      destruct (IH w1 g1) as (w' & g' & Hrun & Hself).
      exists w', g'. simpl run. rewrite Hact. simpl. split; [done|].
      by rewrite Hself. }
  exists w', g'. rewrite Hself. repeat split; [done|].
  intros fs n w'' paths Htake.
  apply take_paths_Finished in Htake as [-> _]. by rewrite Hself.
Qed.

Lemma configuration_unchanged_witness :
  let self0 := __init__ "/" "/tmp/proj" None in
  let w := {| walker := self0; stdout := [] |} in
  let actions := [CallWalk; CallNext proj_fs; CallWalk; CallNext proj_fs;
                  CallNext proj_fs; CallNext proj_fs] in
  ∃ w' g',
    run (w, Finished) actions = Some (w', g')
    ∧ root_dir (walker w') = root_dir self0
    ∧ extensions (walker w') = extensions self0
    ∧ ignore_dirs (walker w') = ignore_dirs self0
    ∧ ∀ fs n w'' paths,
        take_paths n fs w' Created = Some (w'', Finished, paths) →
        paths = walk self0 fs.
Proof.
  intros self0 w actions.
  exact (configuration_unchanged actions w Finished).
Defined.

(** C9. The root directory is scanned whatever its name: when the basename
    of the root is in the ignore set, the root is still the first directory
    visited and its matching files are yielded. *)
Theorem root_never_pruned (cwd root : string) (exts : option (list string))
    (fs : filesystem) (tree : list node) (name : string) :
  let self := __init__ cwd root exts in
  basename (root_dir self) ∈ spec_ignored →
  fs (root_dir self) = Some tree →
  File name ∈ tree →
  matches self name = true →
  (∃ rest, visited self fs = root_dir self :: rest)
  ∧ join (root_dir self) name ∈ walk self fs.
Proof.
  intros self _ Hfs Hname Hm. split.
  - rewrite (visited_tree_dirs _ _ _ Hfs). unfold tree_dirs.
    rewrite filter_cons_True by constructor. by eexists.
  - apply (elem_of_walk _ _ _ _ Hfs). exists [], (File name).
    repeat split; [|done|constructor]. by apply elem_of_tree_entries_top.
Qed.

Lemma root_never_pruned_witness :
  let self := __init__ "/home/u" "build" None in
  basename (root_dir self) ∈ spec_ignored
  ∧ build_fs (root_dir self)
    = Some [File "setup.py"; Dir "build" [File "gen.py"]]
  ∧ File "setup.py" ∈ [File "setup.py"; Dir "build" [File "gen.py"]]
  ∧ matches self "setup.py" = true
  ∧ (∃ rest, visited self build_fs = root_dir self :: rest)
  ∧ join (root_dir self) "setup.py" ∈ walk self build_fs.
Proof.
  intros self.
  assert (basename (root_dir self) ∈ spec_ignored) as Hbase by compute_done.
  assert (build_fs (root_dir self)
          = Some [File "setup.py"; Dir "build" [File "gen.py"]]) as Hfs
    by reflexivity.
  assert (File "setup.py" ∈ [File "setup.py"; Dir "build" [File "gen.py"]])
    as Hname by constructor.
  assert (matches self "setup.py" = true) as Hm by reflexivity.
  repeat (split; [assumption|]).
  exact (root_never_pruned "/home/u" "build" None build_fs _ "setup.py"
           Hbase Hfs Hname Hm).
Defined.



(** * Further properties of the walker *)

(** ** Order of the paths *)

Lemma emit_listing self (P : node → Prop) `{!∀ d, Decision (P d)} top
    (entries : list node) :
  emit self (listing P top entries)
  = (λ e, join top (entry_name e))
      <$> filter (λ e, is_dir e = false ∧ matches self (entry_name e) = true)
            entries.
Proof.
  unfold emit, listing. induction entries as [|e entries IH]; [done|].
  rewrite !filter_cons.
  destruct (decide (is_dir e = false)) as [Hd|Hd].
  - rewrite fmap_cons, filter_cons.
    destruct (decide (matches self (entry_name e) = true)) as [Hm|Hm].
    + rewrite decide_True by done. rewrite !fmap_cons. by rewrite IH.
    + rewrite decide_False by tauto. exact IH.
  - rewrite decide_False by tauto. exact IH.
Qed.

Lemma filter_yielded self chain (entries : list node) :
  filter (yielded self) (pair chain <$> entries)
  = if decide (Forall (λ name, name ∉ ignore_dirs self) chain)
    then pair chain
           <$> filter (λ e, is_dir e = false
                            ∧ matches self (entry_name e) = true) entries
    else [].
Proof.
  rewrite filter_fmap. destruct (decide _) as [Hc|Hc].
  - f_equal. apply list_filter_iff. intros e. unfold yielded. simpl. tauto.
  - rewrite filter_none; [done|]. intros e. unfold yielded. simpl. tauto.
Qed.

Lemma bind_fmap_filter {A B C} (P : A → Prop) `{!∀ x, Decision (P x)}
    (f : A → B) (g : B → list C) (l : list A) :
  (f <$> filter P l) ≫= g = l ≫= (λ x, if decide (P x) then g (f x) else []).
Proof.
  induction l as [|x l IH]; [done|].
  rewrite filter_cons, bind_cons. destruct (decide (P x)); [|done].
  by rewrite fmap_cons, bind_cons, IH.
Qed.

Lemma walk_tree_entries self fs tree :
  fs (root_dir self) = Some tree →
  walk self fs
  = (λ c, entry_path (root_dir self) c.1 (entry_name c.2))
      <$> filter (yielded self) (tree_entries tree).
Proof.
  intros Hfs. unfold walk. rewrite (os_walk_tree_dirs _ _ _ Hfs).
  unfold tree_entries. rewrite filter_bind, fmap_bind, bind_fmap_filter.
  apply bind_ext_Forall, Forall_forall. intros [chain es] _. simpl.
  rewrite filter_yielded. destruct (decide _); [|done].
  etrans; [exact (emit_listing self (λ d, entry_name d ∉ ignore_dirs self)
                    (dir_path (root_dir self) chain) es)|].
  by rewrite <-list_fmap_compose.
Qed.

(** X1. [walk] yields one path for each entry of the tree that is a
    non-directory entry with a matching name in a directory that is not
    pruned, no path more than once for an entry even when several extensions
    match, and the paths come in the order of [tree_entries]: directory
    by directory as [os.walk] visits them, in listing order within one. *)
Theorem walk_once_per_entry (self : FileWalker) (fs : filesystem)
    (tree : list node) :
  fs (root_dir self) = Some tree →
  walk self fs
  = (λ c, entry_path (root_dir self) c.1 (entry_name c.2))
      <$> filter (yielded self) (tree_entries tree)
  ∧ length (walk self fs) = length (filter (yielded self) (tree_entries tree)).
Proof.
  intros Hfs. rewrite (walk_tree_entries _ _ _ Hfs). split; [done|].
  by rewrite length_fmap.
Qed.

Lemma walk_once_per_entry_witness :
  let self := __init__ "/" "/w" (Some [".py"; "py"; ".PY"]) in
  let tree := [ File "b.py"; Dir "z" [File "z1.py"; Dir "y" [File "y1.py"]];
                File "a.py"; Dir "build" [File "gen.py"]; DirLink "ln";
                Dir "k" [File "k1.txt"; File "k2.PY"] ] in
  wide_fs (root_dir self) = Some tree
  ∧ walk self wide_fs
    = ["/w/b.py"; "/w/a.py"; "/w/z/z1.py"; "/w/z/y/y1.py"; "/w/k/k2.PY"]
  ∧ length (walk self wide_fs)
    = length (filter (yielded self) (tree_entries tree)).
Proof.
  intros self tree.
  assert (wide_fs (root_dir self) = Some tree) as Hfs by reflexivity.
  split; [exact Hfs|]. split; [vm_compute; reflexivity|].
  exact (proj2 (walk_once_per_entry self wide_fs tree Hfs)).
Defined.

(** ** A missing root *)



(** ** The notice *)

Lemma advance_Suspended fuel self stack path g :
  advance fuel self stack = Some (Yield path g) →
  ∃ ow files, g = Suspended ow files.
Proof.
  revert stack. induction fuel as [|fuel IH]; intros stack.
  - by destruct stack as [|[??] ?].
  - destruct stack as [|[top entries] stack]; [done|]. simpl.
    destruct (scan self top _) as [[path' files]|]; [|by apply IH].
    intros [= <- <-]. by eexists _, _.
Qed.

Lemma next_stdout fs w g w' out :
  next fs w g = Some (w', out) →
  stdout w' = stdout w ++ match g with
                           | Created => [scanning_notice (walker w)]
                           | Suspended _ _ | Finished => []
                           end
  ∧ match out with
    | Yield _ g' => ∃ ow files, g' = Suspended ow files
    | StopIteration => True
    end.
Proof.
  destruct g as [|ow files|]; simpl.
  - destruct (advance _ _ _) as [out'|] eqn:Ha; [|done].
    intros [= <- <-]. split; [done|].
    destruct out' as [path g'|]; [|done]. by eapply advance_Suspended.
  - destruct (scan _ _ _) as [[path files']|].
    + intros [= <- <-]. rewrite app_nil_r. split; [done|]. by eexists _, _.
    + destruct (advance _ _ _) as [out'|] eqn:Ha; [|done].
      intros [= <- <-]. rewrite app_nil_r. split; [done|].
      destruct out' as [path g'|]; [|done]. by eapply advance_Suspended.
  - intros [= <- <-]. by rewrite app_nil_r.
Qed.

Lemma take_paths_started_stdout n fs w g w' g' paths :
  g ≠ Created →
  take_paths n fs w g = Some (w', g', paths) → stdout w' = stdout w.
Proof.
  revert w g w' g' paths.
  induction n as [|n IH]; intros w g w' g' paths Hg.
  - by intros [= <- <- <-].
  - cbn [take_paths].
    destruct (next fs w g) as [[w1 out]|] eqn:Hnext; [|done].
    apply next_stdout in Hnext as [Hout Hg1].
    assert (stdout w1 = stdout w) as Hw1.
    { rewrite Hout. destruct g; [done|by rewrite app_nil_r..]. }
    destruct out as [path g1|].
    + destruct Hg1 as (ow & files & ->).
      destruct (take_paths n fs w1 _) as [[[w2 g2] paths2]|] eqn:Htake;
        [|done].
      simpl. intros [= <- <- <-]. rewrite <-Hw1.
      by apply (IH _ _ _ _ _ (ltac:(done) : Suspended ow files ≠ Created) Htake).
    + by intros [= <- <- <-].
Qed.

(** X3. The notice is printed once for each traversal, by the first
    [next]: making the generator prints nothing, and however many paths are
    taken afterwards, the output has grown by the one notice naming the
    root. *)
Theorem notice_once_per_traversal (fs : filesystem) (w : world) (n : nat) :
  take_paths 0 fs w Created = Some (w, Created, [])
  ∧ ∃ w' g' paths,
      take_paths (S n) fs w Created = Some (w', g', paths)
      ∧ stdout w' = stdout w ++ [scanning_notice (walker w)].
Proof.
  split; [done|].
  destruct (take_paths_spec (S n) fs w Created) as (w' & g' & Htake & _).
  eexists w', g', _. split; [exact Htake|].
  cbn [take_paths] in Htake.
  destruct (next fs w Created) as [[w1 out]|] eqn:Hnext; [|done].
  apply next_stdout in Hnext as [Hout Hg1].
  destruct out as [path g1|].
  - destruct Hg1 as (ow & files & ->).
    destruct (take_paths n fs w1 _) as [[[w2 g2] paths2]|] eqn:Htake2; [|done].
    simpl in Htake. injection Htake as <- <- _.
    rewrite <-Hout.
    eapply (take_paths_started_stdout _ _ _ (Suspended ow files));
      [done|exact Htake2].
  - by injection Htake as <- <- _.
Qed.

(** ** Taking some of the paths *)

Lemma take_paths_Finished_length n fs w g w' paths :
  g ≠ Finished →
  take_paths n fs w g = Some (w', Finished, paths) → length paths < n.
Proof.
  revert w g w' paths. induction n as [|n IH]; intros w g w' paths Hg.
  - intros [= _ Hfin _]. by destruct Hg.
  - cbn [take_paths].
    destruct (next fs w g) as [[w1 out]|] eqn:Hnext; [|done].
    apply next_stdout in Hnext as [_ Hg1].
    destruct out as [path g1|].
    + destruct Hg1 as (ow & files & ->).
      destruct (take_paths n fs w1 _) as [[[w2 g2] paths2]|] eqn:Htake;
        [|done].
      simpl. intros [= _ Hg2 <-]. subst g2. simpl.
      apply IH in Htake; [lia|done].
    + intros [= <- <-]. simpl. lia.
Qed.

(** X4. Asking the generator of a new traversal for [n] paths gives the
    first [n] paths of the whole traversal, and leaves the generator finished
    exactly when more paths were asked for than the traversal has. *)
Theorem take_paths_prefix (fs : filesystem) (w : world) (n : nat) :
  ∃ w' g',
    take_paths n fs w Created = Some (w', g', take n (walk (walker w) fs))
    ∧ (g' = Finished ↔ length (walk (walker w) fs) < n).
Proof.
  destruct (take_paths_spec n fs w Created)
    as (w' & g' & Htake & _ & _ & Hfin).
  simpl pending in *. exists w', g'. split; [done|]. split; [|done].
  intros ->. apply take_paths_Finished_length in Htake; [|done].
  rewrite length_take in Htake. lia.
Qed.

(** ** Extensions *)

Lemma string_app_empty_r s : s +:+ "" = s.
Proof.
  induction s as [|c s IH]; [done|].
  change (String c (s +:+ "") = String c s). by rewrite IH.
Qed.

Lemma string_app_assoc s1 s2 s3 : (s1 +:+ s2) +:+ s3 = s1 +:+ s2 +:+ s3.
Proof.
  induction s1 as [|c s1 IH]; [done|].
  change (String c ((s1 +:+ s2) +:+ s3) = String c (s1 +:+ s2 +:+ s3)).
  by rewrite IH.
Qed.

(** X5. An empty string among the given extensions matches every name:
    the traversal then yields every non-directory entry outside the pruned
    directories, whatever the other extensions are. *)
Theorem empty_extension_matches_all (cwd root : string) (e : string)
    (es : list string) (fs : filesystem) (tree : list node) (path : string) :
  let self := __init__ cwd root (Some (e :: es)) in
  "" ∈ e :: es →
  fs (root_dir self) = Some tree →
  (∀ file, matches self file = true)
  ∧ (path ∈ walk self fs
     ↔ ∃ chain name,
         (chain, File name) ∈ tree_entries tree
         ∧ Forall (λ d, d ∉ spec_ignored) chain
         ∧ path = entry_path (root_dir self) chain name).
Proof.
  intros self Hempty Hfs.
  assert (∀ file, matches self file = true) as Hall.
  { intros file. apply matches_spec. exists "". split.
    - by apply (list_elem_of_fmap_2 lower _ "").
    - exists (lower file). by rewrite string_app_empty_r. }
  split; [done|]. rewrite (elem_of_walk _ _ _ _ Hfs). split.
  - intros (chain & [name| |] & He & Hd & _ & Hchain & ->); [|done..].
    exists chain, name. repeat split; [done|].
    by apply (init_chain_kept cwd root (Some (e :: es))).
  - intros (chain & name & He & Hchain & ->). exists chain, (File name).
    repeat split; [done|apply Hall|].
    by apply (init_chain_kept cwd root (Some (e :: es))).
Qed.

Lemma empty_extension_matches_all_witness :
  let self := __init__ "/" "/tmp/proj" (Some [".md"; ""]) in
  let tree := [ File "a.py"; Dir ".git" [File "hook.py"];
                Dir "sub" [File "b.PY"; File "c.txt"] ] in
  "" ∈ [".md"; ""]
  ∧ proj_fs (root_dir self) = Some tree
  ∧ walk self proj_fs
    = ["/tmp/proj/a.py"; "/tmp/proj/sub/b.PY"; "/tmp/proj/sub/c.txt"]
  ∧ (∀ file, matches self file = true).
Proof.
  intros self tree.
  assert ("" ∈ [".md"; ""]) as Hempty by compute_done.
  assert (proj_fs (root_dir self) = Some tree) as Hfs by reflexivity.
  split; [exact Hempty|]. split; [exact Hfs|].
  split; [vm_compute; reflexivity|].
  exact (proj1 (empty_extension_matches_all "/" "/tmp/proj" ".md" [""]
                  proj_fs tree "" Hempty Hfs)).
Defined.



(** ** The root *)

Lemma normalized_absolute_starts path :
  normalized_absolute path → startswith path "/" = true.
Proof. intros (n & comps & [-> | ->] & _ & ->); done. Qed.

(** X7. A walker built again from the attributes of a walker is that
    walker, in whichever working directory it is built: the stored root is
    not resolved against the working directory a second time, and the stored
    extensions are not changed by another lowercasing. *)
Theorem init_again_same (cwd cwd' root : string)
    (exts : option (list string)) :
  startswith cwd "/" = true →
  let self := __init__ cwd root exts in
  __init__ cwd' (root_dir self) (Some (extensions self)) = self.
Proof.
  intros Hcwd self.
  assert (abspath cwd' (root_dir self) = root_dir self) as Hroot.
  { pose proof (abspath_absolute cwd root Hcwd) as Hnorm.
    unfold abspath at 1. simpl root_dir.
    rewrite (normalized_absolute_starts _ Hnorm). by apply normpath_fixed. }
  assert (∃ e es, extensions self = e :: es
                  ∧ lower <$> e :: es = e :: es) as (e & es & He & Hlow).
  { destruct exts as [[|e es]|].
    - by exists ".py", [].
    - exists (lower e), (lower <$> es). split; [done|].
      rewrite fmap_cons, lower_idemp, <-list_fmap_compose. f_equal.
      apply list_fmap_ext. intros _ ext _. apply lower_idemp.
    - by exists ".py", []. }
  unfold __init__ at 1. rewrite Hroot, He, Hlow, <-He. by destruct exts.
Qed.

Lemma init_again_same_witness :
  let self := __init__ "/home/u" "../v/./proj/" (Some [".PY"; ".Md"]) in
  startswith "/home/u" "/" = true
  ∧ root_dir self = "/home/v/proj"
  ∧ __init__ "/somewhere/else" (root_dir self) (Some (extensions self)) = self.
Proof.
  intros self.
  assert (startswith "/home/u" "/" = true) as Hcwd by reflexivity.
  split; [exact Hcwd|]. split; [vm_compute; reflexivity|].
  exact (init_again_same "/home/u" "/somewhere/else" "../v/./proj/"
           (Some [".PY"; ".Md"]) Hcwd).
Defined.

(** ** Subdirectories *)

Lemma stack_paths_app self s1 s2 :
  stack_paths self (s1 ++ s2) = stack_paths self s1 ++ stack_paths self s2.
Proof. unfold stack_paths. by rewrite !bind_app. Qed.

Lemma walk_at_root self root entries :
  walk (at_root self root) (listing_fs entries)
  = stack_paths self [(root, entries)].
Proof. by rewrite walk_stack_paths. Qed.

Lemma stack_paths_subdirs self top (ds : list node) :
  stack_paths self (subdirs top ds)
  = d ← ds; match d with
            | Dir name sub =>
                walk (at_root self (join top name)) (listing_fs sub)
            | File _ | DirLink _ => []
            end.
Proof.
  induction ds as [|d ds IH]; [done|]. rewrite bind_cons, <-IH.
  destruct d as [name|name sub|name]; [done| |done].
  rewrite walk_at_root.
  change (subdirs top (Dir name sub :: ds))
    with ([(join top name, sub)] ++ subdirs top ds).
  by rewrite stack_paths_app.
Qed.

(** X8. The traversal of a directory yields the matching files of the
    directory itself, in listing order, and then, for each of its
    subdirectories whose name is not ignored, in listing order, what a
    traversal rooted at that subdirectory yields; an ignored subdirectory
    and a link to a directory contribute nothing. *)
Theorem walk_directory_then_subdirectories (self : FileWalker)
    (fs : filesystem) (tree : list node) :
  fs (root_dir self) = Some tree →
  walk self fs
  = (join (root_dir self)
       <$> filter (λ file, matches self file = true)
             (entry_name <$> filter (λ e, is_dir e = false) tree))
    ++ (d ← filter (λ d, entry_name d ∉ ignore_dirs self)
              (filter (λ e, is_dir e = true) tree);
        match d with
        | Dir name sub =>
            walk (at_root self (join (root_dir self) name)) (listing_fs sub)
        | File _ | DirLink _ => []
        end).
Proof.
  intros Hfs. rewrite walk_stack_paths, Hfs, stack_paths_cons, app_nil_r.
  f_equal. unfold prune. apply stack_paths_subdirs.
Qed.

Lemma walk_directory_then_subdirectories_witness :
  let self := __init__ "/" "/w" None in
  let tree := [ File "b.py"; Dir "z" [File "z1.py"; Dir "y" [File "y1.py"]];
                File "a.py"; Dir "build" [File "gen.py"]; DirLink "ln";
                Dir "k" [File "k1.txt"; File "k2.PY"] ] in
  wide_fs (root_dir self) = Some tree
  ∧ walk self wide_fs
    = ["/w/b.py"; "/w/a.py"]
      ++ walk (at_root self "/w/z")
           (listing_fs [File "z1.py"; Dir "y" [File "y1.py"]])
      ++ walk (at_root self "/w/k")
           (listing_fs [File "k1.txt"; File "k2.PY"]).
Proof.
  intros self tree.
  assert (wide_fs (root_dir self) = Some tree) as Hfs by reflexivity.
  split; [exact Hfs|].
  etrans; [exact (walk_directory_then_subdirectories self wide_fs tree Hfs)|].
  vm_compute. reflexivity.
Defined.

(** ** The form of the paths *)

Lemma string_app_not_empty s1 s2 : s2 ≠ "" → s1 +:+ s2 ≠ "".
Proof. intros Hs2. by destruct s1. Qed.

Lemma endswith_no_sep comp :
  "/"%char ∉ list_ascii_of_string comp → endswith comp "/" = false.
Proof.
  induction comp as [|c comp IH]; [done|]. intros Hsep. cbn [endswith].
  rewrite IH by (intros Hin; apply Hsep; by right).
  rewrite orb_false_r. apply String.eqb_neq. intros [= -> _].
  apply Hsep. by left.
Qed.

Lemma endswith_app_no_sep s comp :
  comp ≠ "" → "/"%char ∉ list_ascii_of_string comp →
  endswith (s +:+ comp) "/" = false.
Proof.
  intros Hne Hsep. induction s as [|c s IH]; [by apply endswith_no_sep|].
  change (String c s +:+ comp) with (String c (s +:+ comp)).
  cbn [endswith]. rewrite IH, orb_false_r. apply String.eqb_neq.
  intros [= _ Hs]. by apply (string_app_not_empty s comp).
Qed.

Lemma startswith_app p k : startswith (p +:+ k) p = true.
Proof.
  induction p as [|c p IH]; [done|].
  change (String c p +:+ k) with (String c (p +:+ k)).
  cbn [startswith]. by rewrite Ascii.eqb_refl, IH.
Qed.

Lemma proper_not_absolute name :
  proper_component name → startswith name "/" = false.
Proof.
  intros (He & _ & _ & Hsep). destruct name as [|c name]; [done|].
  cbn [startswith]. destruct (Ascii.eqb_spec "/" c) as [<-|]; [|done].
  destruct Hsep. by left.
Qed.

Lemma join_proper root name :
  proper_component name → join root name = join_base root +:+ name.
Proof.
  intros Hname. unfold join, join_base.
  rewrite (proper_not_absolute _ Hname). simpl orb.
  destruct (String.eqb root ""); [done|].
  destruct (endswith root "/"); [done|]. by rewrite string_app_assoc.
Qed.

Lemma join_base_join root name :
  proper_component name →
  join_base (join root name) = join_base root +:+ name +:+ "/".
Proof.
  intros Hname. rewrite (join_proper _ _ Hname).
  destruct Hname as (He & _ & _ & Hsep). unfold join_base at 1.
  rewrite (proj2 (String.eqb_neq _ _)) by by apply string_app_not_empty.
  rewrite endswith_app_no_sep by done. by rewrite string_app_assoc.
Qed.

Lemma sep_join_cons comp comps :
  comps ≠ [] → sep_join (comp :: comps) = comp +:+ "/" +:+ sep_join comps.
Proof. by destruct comps. Qed.

Lemma entry_path_form root chain name :
  Forall proper_component chain → proper_component name →
  entry_path root chain name = join_base root +:+ sep_join (chain ++ [name]).
Proof.
  intros Hchain Hname. revert root.
  induction Hchain as [|d chain Hd _ IH]; intros root.
  - by apply join_proper.
  - change (entry_path root (d :: chain) name)
      with (entry_path (join root d) chain name).
    rewrite IH, (join_base_join _ _ Hd), !string_app_assoc.
    change ((d :: chain) ++ [name]) with (d :: (chain ++ [name])).
    rewrite sep_join_cons; [done|]. by destruct chain.
Qed.

Lemma entry_path_inj root chain1 name1 chain2 name2 :
  Forall proper_component chain1 → proper_component name1 →
  Forall proper_component chain2 → proper_component name2 →
  entry_path root chain1 name1 = entry_path root chain2 name2 →
  chain1 = chain2 ∧ name1 = name2.
Proof.
  intros Hc1 Hn1 Hc2 Hn2.
  rewrite (entry_path_form _ _ _ Hc1 Hn1), (entry_path_form _ _ _ Hc2 Hn2).
  intros Heq%(inj (String.append _)).
  assert (chain1 ++ [name1] = chain2 ++ [name2]) as Happ.
  { rewrite <-(split_sep_join (chain1 ++ [name1])),
      <-(split_sep_join (chain2 ++ [name2])).
    - by rewrite Heq.
    - by destruct chain2.
    - apply Forall_app. by split; [|constructor].
    - by destruct chain1.
    - apply Forall_app. by split; [|constructor]. }
  by apply app_inj_tail in Happ.
Qed.

(** ** Trees with the names of a file system *)

Lemma names_proper_below name sub tree :
  names_proper tree → Dir name sub ∈ tree → names_proper sub.
Proof.
  unfold names_proper. rewrite !Forall_forall. intros Htree Hin [chain e] He.
  apply (Htree (name :: chain, e)), elem_of_tree_entries_below. by exists sub.
Qed.

Lemma names_proper_chain tree chain e :
  names_proper tree → (chain, e) ∈ tree_entries tree →
  Forall proper_component chain ∧ proper_component (entry_name e).
Proof.
  intros Htree He. split.
  - revert tree Htree He. induction chain as [|d chain IH]; intros tree Htree He;
      [done|].
    apply elem_of_tree_entries_below in He as (sub & Hd & He).
    constructor.
    + unfold names_proper in Htree. rewrite Forall_forall in Htree.
      apply (Htree ([], Dir d sub)). by apply elem_of_tree_entries_top.
    + apply (IH sub); [|done]. by eapply names_proper_below.
  - unfold names_proper in Htree. rewrite Forall_forall in Htree.
    by apply (Htree (chain, e)).
Qed.

Lemma names_unique_top tree :
  names_unique tree → NoDup (entry_name <$> tree).
Proof.
  unfold names_unique. rewrite Forall_forall. intros Htree.
  apply (Htree ([], tree)), elem_of_tree_dirs. by left.
Qed.

Lemma names_unique_below name sub tree :
  names_unique tree → Dir name sub ∈ tree → names_unique sub.
Proof.
  unfold names_unique. rewrite !Forall_forall. intros Htree Hin [chain es] Hd.
  apply (Htree (name :: chain, es)), elem_of_tree_dirs. right.
  by exists name, sub, chain.
Qed.

Lemma NoDup_fmap_eq {A B} (f : A → B) (l : list A) x y :
  NoDup (f <$> l) → x ∈ l → y ∈ l → f x = f y → x = y.
Proof.
  induction l as [|z l IH]; [by intros _ ?%elem_of_nil|].
  rewrite fmap_cons, NoDup_cons. intros [Hz Hl].
  intros [->|Hx]%elem_of_cons [->|Hy]%elem_of_cons Hf; [done| | |by apply IH].
  - destruct Hz. rewrite Hf. by apply list_elem_of_fmap_2.
  - destruct Hz. rewrite <-Hf. by apply list_elem_of_fmap_2.
Qed.

Lemma tree_dirs_functional tree chain es1 es2 :
  names_unique tree →
  (chain, es1) ∈ tree_dirs tree → (chain, es2) ∈ tree_dirs tree → es1 = es2.
Proof.
  revert tree. induction chain as [|d chain IH]; intros tree Htree H1 H2.
  - apply elem_of_tree_dirs in H1 as [[_ ->]|(? & ? & ? & [=] & _)].
    by apply elem_of_tree_dirs in H2 as [[_ ->]|(? & ? & ? & [=] & _)].
  - apply elem_of_tree_dirs in H1
      as [[[=] _]|(d1 & sub1 & c1 & [= <- <-] & Hd1 & H1)].
    apply elem_of_tree_dirs in H2
      as [[[=] _]|(d2 & sub2 & c2 & [= <- <-] & Hd2 & H2)].
    assert (Dir d sub1 = Dir d sub2) as [= <-].
    { by apply (NoDup_fmap_eq entry_name tree);
        [apply names_unique_top|..]. }
    apply (IH sub1); [|done..]. by eapply names_unique_below.
Qed.

Lemma tree_entries_functional tree chain e1 e2 :
  names_unique tree →
  (chain, e1) ∈ tree_entries tree → (chain, e2) ∈ tree_entries tree →
  entry_name e1 = entry_name e2 → e1 = e2.
Proof.
  intros Htree (es1 & Hd1 & He1)%elem_of_tree_entries
    (es2 & Hd2 & He2)%elem_of_tree_entries Hname.
  assert (es1 = es2) as <- by by eapply tree_dirs_functional.
  apply (NoDup_fmap_eq entry_name es1); [|done..].
  unfold names_unique in Htree. rewrite Forall_forall in Htree.
  by apply (Htree (chain, es1)).
Qed.

Lemma NoDup_tree_dirs_node (n : node) :
  match n with
  | Dir _ entries => names_unique entries → NoDup (tree_dirs entries)
  | File _ | DirLink _ => True
  end.
Proof.
  induction n as [name|name entries IH|name] using node_ind; [done| |done].
  intros Htree. unfold tree_dirs. apply NoDup_cons. split.
  - intros (e & He & _)%list_elem_of_bind.
    destruct e as [?|d sub|?]; [by apply elem_of_nil in He| |
      by apply elem_of_nil in He].
    rewrite dirs_below_Dir in He.
    by apply list_elem_of_fmap in He as ([? ?] & [=] & _).
  - apply NoDup_bind.
    + intros e1 e2 [chain es] He1 He2 H1 H2.
      destruct e1 as [?|d1 sub1|?]; [by apply elem_of_nil in H1| |
        by apply elem_of_nil in H1].
      destruct e2 as [?|d2 sub2|?]; [by apply elem_of_nil in H2| |
        by apply elem_of_nil in H2].
      rewrite dirs_below_Dir in H1, H2.
      apply list_elem_of_fmap in H1 as ([c1 ?] & [= -> ->] & _).
      apply list_elem_of_fmap in H2 as ([c2 ?] & [= <- _ _] & _).
      by apply (NoDup_fmap_eq entry_name entries);
        [apply names_unique_top|..].
    + intros e He. destruct e as [?|d sub|?]; [constructor| |constructor].
      rewrite dirs_below_Dir. apply NoDup_fmap_2_strong.
      * by intros [c1 es1] [c2 es2] _ _ [= -> ->].
      * rewrite Forall_forall in IH. apply (IH (Dir d sub) He).
        by eapply names_unique_below.
    + eapply NoDup_fmap_1, names_unique_top, Htree.
Qed.

Lemma NoDup_tree_entries tree :
  names_unique tree → NoDup (tree_entries tree).
Proof.
  intros Htree. unfold tree_entries. apply NoDup_bind.
  - intros [c1 es1] [c2 es2] [chain e] Hd1 Hd2. simpl.
    intros (? & [= <- _] & _)%list_elem_of_fmap
      (? & [= <- _] & _)%list_elem_of_fmap.
    f_equal. by eapply tree_dirs_functional.
  - intros [chain es] Hd. simpl. apply NoDup_fmap_2_strong.
    + by intros e1 e2 _ _ [= ->].
    + unfold names_unique in Htree. rewrite Forall_forall in Htree.
      eapply NoDup_fmap_1, (Htree (chain, es)), Hd.
  - by apply (NoDup_tree_dirs_node (Dir "" tree)).
Qed.

(** ** Paths and entries, one to one *)

(** X9. On a tree with the names of a file system (no name empty, ["."],
    [".."] or with a separator; no two entries of a directory with the same
    name) no path is yielded twice. *)
Theorem walk_no_duplicates (self : FileWalker) (fs : filesystem)
    (tree : list node) :
  names_proper tree → names_unique tree →
  fs (root_dir self) = Some tree →
  NoDup (walk self fs).
Proof.
  intros Hproper Hunique Hfs. rewrite (walk_tree_entries _ _ _ Hfs).
  apply NoDup_fmap_2_strong.
  - intros [c1 e1] [c2 e2] [_ H1]%list_elem_of_filter
      [_ H2]%list_elem_of_filter Hpath. simpl in Hpath.
    destruct (names_proper_chain _ _ _ Hproper H1) as [Hc1 Hn1].
    destruct (names_proper_chain _ _ _ Hproper H2) as [Hc2 Hn2].
    destruct (entry_path_inj _ _ _ _ _ Hc1 Hn1 Hc2 Hn2 Hpath) as [<- Hname].
    f_equal. by eapply tree_entries_functional.
  - by apply NoDup_filter, NoDup_tree_entries.
Qed.

Lemma walk_no_duplicates_witness :
  let self := __init__ "/" "/w" (Some [".py"; "py"]) in
  let tree := [ File "b.py"; Dir "z" [File "z1.py"; Dir "y" [File "y1.py"]];
                File "a.py"; Dir "build" [File "gen.py"]; DirLink "ln";
                Dir "k" [File "k1.txt"; File "k2.PY"] ] in
  names_proper tree ∧ names_unique tree
  ∧ wide_fs (root_dir self) = Some tree
  ∧ NoDup (walk self wide_fs).
Proof.
  intros self tree.
  assert (names_proper tree) as Hproper by compute_done.
  assert (names_unique tree) as Hunique by compute_done.
  assert (wide_fs (root_dir self) = Some tree) as Hfs by reflexivity.
  repeat (split; [assumption|]).
  exact (walk_no_duplicates self wide_fs tree Hproper Hunique Hfs).
Defined.

(** X10. On a tree with the names of a file system (as in X9) the path of
    an entry is yielded exactly when the
    entry is a non-directory entry with a matching name and no directory
    above it, below the root, has an ignored name: the path of a file below
    an ignored directory, of a file that does not match and of a directory
    is not among the paths yielded. *)
Theorem walk_path_of_entry (self : FileWalker) (fs : filesystem)
    (tree : list node) (chain : list string) (e : node) :
  names_proper tree → names_unique tree →
  fs (root_dir self) = Some tree →
  (chain, e) ∈ tree_entries tree →
  entry_path (root_dir self) chain (entry_name e) ∈ walk self fs
  ↔ is_dir e = false ∧ matches self (entry_name e) = true
    ∧ Forall (λ name, name ∉ ignore_dirs self) chain.
Proof.
  intros Hproper Hunique Hfs He. rewrite (elem_of_walk _ _ _ _ Hfs). split.
  - intros (chain' & e' & He' & Hd & Hm & Hchain & Hpath).
    destruct (names_proper_chain _ _ _ Hproper He) as [Hc Hn].
    destruct (names_proper_chain _ _ _ Hproper He') as [Hc' Hn'].
    destruct (entry_path_inj _ _ _ _ _ Hc Hn Hc' Hn' Hpath) as [<- Hname].
    by rewrite (tree_entries_functional _ _ _ _ Hunique He He' Hname).
  - intros (Hd & Hm & Hchain). by exists chain, e.
Qed.

Lemma walk_path_of_entry_witness :
  let self := __init__ "/" "/w" None in
  let tree := [ File "b.py"; Dir "z" [File "z1.py"; Dir "y" [File "y1.py"]];
                File "a.py"; Dir "build" [File "gen.py"]; DirLink "ln";
                Dir "k" [File "k1.txt"; File "k2.PY"] ] in
  names_proper tree ∧ names_unique tree
  ∧ wide_fs (root_dir self) = Some tree
  ∧ (["build"], File "gen.py") ∈ tree_entries tree
  ∧ "/w/build/gen.py" ∉ walk self wide_fs.
Proof.
  intros self tree.
  assert (names_proper tree) as Hproper by compute_done.
  assert (names_unique tree) as Hunique by compute_done.
  assert (wide_fs (root_dir self) = Some tree) as Hfs by reflexivity.
  assert ((["build"], File "gen.py") ∈ tree_entries tree) as He
    by tree_member.
  repeat (split; [assumption|]).
  intros Hin.
  apply (walk_path_of_entry self wide_fs tree ["build"] (File "gen.py")
           Hproper Hunique Hfs He) in Hin as (_ & _ & Hchain).
  revert Hchain. compute_done.
Defined.

(** ** The paths are absolute *)

Lemma sep_join_app comps1 comps2 :
  comps1 ≠ [] → comps2 ≠ [] →
  sep_join (comps1 ++ comps2)
  = sep_join comps1 +:+ "/" +:+ sep_join comps2.
Proof.
  intros H1 H2. induction comps1 as [|c [|c' comps1] IH]; [done| |].
  - by apply sep_join_cons.
  - change ((c :: c' :: comps1) ++ comps2)
      with (c :: ((c' :: comps1) ++ comps2)).
    rewrite !sep_join_cons by done. rewrite IH by done.
    by rewrite !string_app_assoc.
Qed.

Lemma sep_join_last comps :
  comps ≠ [] → Forall proper_component comps →
  ∃ s comp, proper_component comp ∧ sep_join comps = s +:+ comp.
Proof.
  intros Hne Hcomps. induction Hcomps as [|c comps Hc Hcomps IH]; [done|].
  destruct comps as [|c' comps].
  - by exists "", c.
  - destruct IH as (s & comp & Hcomp & Hs); [done|].
    exists (c +:+ "/" +:+ s), comp. split; [done|].
    rewrite sep_join_cons by done. by rewrite Hs, !string_app_assoc.
Qed.

Lemma join_base_normalized n comps :
  n = 1 ∨ n = 2 → Forall proper_component comps →
  (∃ k, join_base (slashes n +:+ sep_join comps)
        = (slashes n +:+ sep_join comps) +:+ k)
  ∧ ∀ rest, rest ≠ [] →
      join_base (slashes n +:+ sep_join comps) +:+ sep_join rest
      = slashes n +:+ sep_join (comps ++ rest).
Proof.
  intros Hn Hcomps. destruct comps as [|c comps].
  { split; [exists ""|]; by destruct Hn as [-> | ->]. }
  destruct (sep_join_last (c :: comps)) as (s & comp & Hcomp & Hs);
    [done..|].
  assert (join_base (slashes n +:+ sep_join (c :: comps))
          = slashes n +:+ sep_join (c :: comps) +:+ "/") as ->.
  { unfold join_base.
    rewrite (proj2 (String.eqb_neq _ _)) by (by destruct Hn as [-> | ->]).
    rewrite Hs, <-string_app_assoc.
    destruct Hcomp as (He & _ & _ & Hsep).
    rewrite endswith_app_no_sep by done. by rewrite !string_app_assoc. }
  split.
  - exists "/". by rewrite !string_app_assoc.
  - intros rest Hrest. rewrite sep_join_app by done.
    by rewrite !string_app_assoc.
Qed.

(** X11. With the working directory an absolute path and a tree with the
    names of a file system, every path the traversal yields is an absolute
    normalized path (one that [normpath] would leave as it is) that begins
    with the root the walker stores and is longer than it. *)
Theorem walk_paths_absolute (cwd root : string) (exts : option (list string))
    (fs : filesystem) (tree : list node) (path : string) :
  let self := __init__ cwd root exts in
  startswith cwd "/" = true →
  names_proper tree →
  fs (root_dir self) = Some tree →
  path ∈ walk self fs →
  normalized_absolute path
  ∧ normpath path = path
  ∧ startswith path (root_dir self) = true
  ∧ path ≠ root_dir self.
Proof.
  intros self Hcwd Hproper Hfs Hpath.
  apply (elem_of_walk _ _ _ _ Hfs) in Hpath
    as (chain & e & He & _ & _ & _ & ->).
  destruct (names_proper_chain _ _ _ Hproper He) as [Hchain Hname].
  rewrite (entry_path_form _ _ _ Hchain Hname).
  destruct (abspath_absolute cwd root Hcwd) as (n & comps & Hn & Hcomps & Hroot).
  change (root_dir self) with (abspath cwd root). rewrite Hroot.
  assert (chain ++ [entry_name e] ≠ []) as Hne by (by destruct chain).
  assert (Forall proper_component (chain ++ [entry_name e])) as Hall.
  { apply Forall_app. by split; [|constructor]. }
  destruct (join_base_normalized n comps Hn Hcomps) as [[k Hbase] Happ].
  assert (normalized_absolute
            (slashes n +:+ sep_join (comps ++ chain ++ [entry_name e])))
    as Hnorm.
  { exists n, (comps ++ chain ++ [entry_name e]). repeat split; [done|].
    by apply Forall_app. }
  rewrite (Happ _ Hne). split; [done|]. split; [by apply normpath_fixed|].
  split.
  - rewrite <-(Happ _ Hne), Hbase, string_app_assoc. apply startswith_app.
  - intros Heq. apply (inj (String.append _)) in Heq.
    assert (comps ++ chain ++ [entry_name e] = comps) as Hlist.
    { destruct comps as [|c comps].
      - simpl in Heq.
        destruct (chain ++ [entry_name e]) as [|x l] eqn:Hl; [done|].
        apply Forall_cons in Hall as [Hx _].
        destruct (sep_join_head x l Hx) as (a & rest & _ & Hhead).
        by rewrite Hhead in Heq.
      - apply (f_equal split) in Heq.
        rewrite (split_sep_join (c :: comps)) in Heq by done.
        rewrite split_sep_join in Heq; [done..|]. by apply Forall_app. }
    apply (f_equal length) in Hlist. rewrite !length_app in Hlist.
    simpl in Hlist. lia.
Qed.

Lemma walk_paths_absolute_witness :
  let self := __init__ "/home/u" "../../w/" None in
  let tree := [ File "b.py"; Dir "z" [File "z1.py"; Dir "y" [File "y1.py"]];
                File "a.py"; Dir "build" [File "gen.py"]; DirLink "ln";
                Dir "k" [File "k1.txt"; File "k2.PY"] ] in
  startswith "/home/u" "/" = true
  ∧ names_proper tree
  ∧ wide_fs (root_dir self) = Some tree
  ∧ "/w/z/y/y1.py" ∈ walk self wide_fs
  ∧ normalized_absolute "/w/z/y/y1.py"
  ∧ normpath "/w/z/y/y1.py" = "/w/z/y/y1.py"
  ∧ startswith "/w/z/y/y1.py" (root_dir self) = true
  ∧ "/w/z/y/y1.py" ≠ root_dir self.
Proof.
  intros self tree.
  assert (startswith "/home/u" "/" = true) as Hcwd by reflexivity.
  assert (names_proper tree) as Hproper by compute_done.
  assert (wide_fs (root_dir self) = Some tree) as Hfs by reflexivity.
  assert ("/w/z/y/y1.py" ∈ walk self wide_fs) as Hpath by compute_done.
  repeat (split; [assumption|]).
  exact (walk_paths_absolute "/home/u" "../../w/" None wide_fs tree
           "/w/z/y/y1.py" Hcwd Hproper Hfs Hpath).
Defined.

(** ** The extensions as a set *)

(** X12. The traversal depends on the given extensions as a set only, and
    on each up to case: two lists of extensions with the same lowercased
    members, in any order and with any repetitions, give the same sequence
    of paths. *)
Theorem walk_extensions_as_set (cwd root : string) (e1 e2 : string)
    (es1 es2 : list string) (fs : filesystem) :
  (∀ ext, ext ∈ lower <$> e1 :: es1 ↔ ext ∈ lower <$> e2 :: es2) →
  walk (__init__ cwd root (Some (e1 :: es1))) fs
  = walk (__init__ cwd root (Some (e2 :: es2))) fs.
Proof.
  intros Hset. unfold walk.
  apply bind_ext_Forall, Forall_forall. intros [[dir ds] files] _.
  unfold emit. f_equal. apply list_filter_iff. intros file.
  rewrite !matches_spec. split.
  - intros (ext & Hext & Hsuf). exists ext. split; [|done]. by apply Hset.
  - intros (ext & Hext & Hsuf). exists ext. split; [|done]. by apply Hset.
Qed.

Lemma walk_extensions_as_set_witness :
  (∀ ext, ext ∈ lower <$> [".PY"; ".md"; ".py"]
          ↔ ext ∈ lower <$> [".Md"; ".py"])
  ∧ walk (__init__ "/" "/w" (Some [".PY"; ".md"; ".py"])) wide_fs
    = walk (__init__ "/" "/w" (Some [".Md"; ".py"])) wide_fs.
Proof.
  assert (∀ ext, ext ∈ lower <$> [".PY"; ".md"; ".py"]
                 ↔ ext ∈ lower <$> [".Md"; ".py"]) as Hset.
  { intros ext. simpl. rewrite !elem_of_cons, elem_of_nil. tauto. }
  split; [exact Hset|].
  exact (walk_extensions_as_set "/" "/w" ".PY" ".Md" [".md"; ".py"] [".py"]
           wide_fs Hset).
Defined.
